(** * Sports-Stats-API: the TTL cache and the NHL read-through service

    A shallow embedding of [utils/cache.ts] (class [MemoryCache], the table
    [CACHE_TTL]) and of [services/nhl.ts] (the five read-through queries and
    [getTeamStats]), with the properties of the specification stated over it;
    then of their callers and siblings: the Express routers of the players
    and of the teams, the uncached service [api/_lib/nhl.ts] and the
    serverless handlers built on it.

    Conventions of the embedding:
    - [Date.now()] is a [Z] (milliseconds); every method that reads the
      clock takes the reading as its first argument [now];
    - a JavaScript value is a term of [value]; numbers are the integers
      (floating point is outside the model);
    - the JavaScript [Map] of the cache is a [gmap string CacheEntry];
    - [T | null] results are values, [VNull] being the code's [null]. *)

From Stdlib Require Import ZArith String Ascii DecimalString Sorted.
From stdpp Require Import gmap strings list fin_maps.

Local Open Scope Z_scope.

(** ** JavaScript values *)

#[local] Set Warnings "-register-all".

Inductive value : Type :=
  | VUndefined
  | VNull
  | VBool (b : bool)
  | VNum (n : Z)
  | VStr (s : string)
  | VArr (items : list value)
  | VObj (fields : list (string * value)).

(** ToBoolean, as used by [if (cached)], [if (!entry)] and [team || null]. *)
Definition truthy (v : value) : bool :=
  match v with
  | VUndefined | VNull => false
  | VBool b => b
  | VNum n => negb (Z.eqb n 0)
  | VStr s => negb (String.eqb s "")
  | VArr _ | VObj _ => true
  end.

Definition falsy (v : value) : bool := negb (truthy v).

(** ** utils/cache.ts *)

Record CacheEntry : Type := mkEntry {
  data : value;
  expiresAt : Z;
}.

(** Handles returned by [setInterval]. *)
Definition timer : Type := nat.

(** The host's timer table: the handles of the running intervals, and the
    next handle to hand out. *)
Record timers : Type := mkTimers {
  running : gset timer;
  next_handle : timer;
}.

Definition setInterval (h : timers) : timer * timers :=
  (next_handle h,
   {| running := {[ next_handle h ]} ∪ running h;
      next_handle := S (next_handle h) |}).

Definition clearInterval (t : timer) (h : timers) : timers :=
  {| running := running h ∖ {[ t ]}; next_handle := next_handle h |}.

Record MemoryCache : Type := mkCache {
  cache : gmap string CacheEntry;
  cleanupInterval : option timer;
}.

Module MemoryCache.

(** [constructor()]: an empty map, and the sweep registered with the host. *)
Definition new (h : timers) : MemoryCache * timers :=
  let '(t, h') := setInterval h in
  ({| cache := ∅; cleanupInterval := Some t |}, h').

Definition get (now : Z) (key : string) (c : MemoryCache)
  : value * MemoryCache :=
  match cache c !! key with
  | None => (VNull, c)
  | Some entry =>
      if Z.gtb now (expiresAt entry)
      then (VNull, {| cache := base.delete key (cache c);
                      cleanupInterval := cleanupInterval c |})
      else (data entry, c)
  end.

Definition set (now : Z) (key : string) (d : value) (ttlMs : Z)
    (c : MemoryCache) : MemoryCache :=
  {| cache := <[ key := {| data := d; expiresAt := now + ttlMs |} ]> (cache c);
     cleanupInterval := cleanupInterval c |}.

Definition delete (key : string) (c : MemoryCache) : MemoryCache :=
  {| cache := base.delete key (cache c);
     cleanupInterval := cleanupInterval c |}.

Definition clear (c : MemoryCache) : MemoryCache :=
  {| cache := ∅; cleanupInterval := cleanupInterval c |}.

(** The loop of [cleanup] deletes every entry with [now > entry.expiresAt]
    and keeps the others. *)
Definition cleanup (now : Z) (c : MemoryCache) : MemoryCache :=
  {| cache := filter (λ kv, ¬ (now > expiresAt kv.2)) (cache c);
     cleanupInterval := cleanupInterval c |}.

Definition destroy (c : MemoryCache) (h : timers) : MemoryCache * timers :=
  let '(ci, h') :=
    match cleanupInterval c with
    | Some t => (None, clearInterval t h)
    | None => (cleanupInterval c, h)
    end in
  ({| cache := ∅; cleanupInterval := ci |}, h').

(** What the host does to cache [c] when the interval [t] that [c]'s
    constructor registered comes due at time [now]: it runs the callback
    [() => this.cleanup()] when [t] is still running, and nothing
    otherwise. *)
Definition on_interval (t : timer) (now : Z) (c : MemoryCache) (h : timers)
  : MemoryCache :=
  if bool_decide (t ∈ running h) then cleanup now c else c.

(** Successive reads of one key at the given clock readings. *)
Fixpoint gets (key : string) (times : list Z) (c : MemoryCache)
  : list value * MemoryCache :=
  match times with
  | [] => ([], c)
  | now :: rest =>
      let '(v, c1) := get now key c in
      let '(vs, c2) := gets key rest c1 in
      (v :: vs, c2)
  end.

End MemoryCache.

(** Cache TTL constants (in milliseconds). *)
Module CACHE_TTL.
Definition LIVE_SCORES : Z := 30000.
Definition SCHEDULE : Z := 5 * 60000.
Definition STANDINGS : Z := 5 * 60000.
Definition PLAYER_STATS : Z := 10 * 60000.
Definition GAME_DETAILS : Z := 30000.
End CACHE_TTL.

(** ** Host built-ins used by services/nhl.ts *)

(** [String(n)] for an integer [n]. *)
Definition show (n : Z) : string := NilZero.string_of_int (Z.to_int n).

Fixpoint zeros (n : nat) : string :=
  match n with
  | O => ""
  | S k => String "0" (zeros k)
  end.

Definition padStart (width : nat) (s : string) : string :=
  zeros (width - String.length s) +:+ s.

(** The calendar date (year, month, day) of a day count from 1970-01-01 in
    the proleptic Gregorian calendar. *)
Definition civil_from_days (days : Z) : Z * Z * Z :=
  let z := days + 719468 in
  let era := z / 146097 in
  let doe := z - era * 146097 in
  let yoe := (doe - doe / 1460 + doe / 36524 - doe / 146096) / 365 in
  let doy := doe - (365 * yoe + yoe / 4 - yoe / 100) in
  let mp := (5 * doy + 2) / 153 in
  let d := doy - (153 * mp + 2) / 5 + 1 in
  let m := if Z.ltb mp 10 then mp + 3 else mp - 9 in
  let y := yoe + era * 400 + (if Z.leb m 2 then 1 else 0) in
  (y, m, d).

(** [new Date(now).toISOString().split('T')[0]]: the UTC date of the clock
    reading [now], as YYYY-MM-DD (a signed six-digit year outside 0..9999). *)
Definition isoDate (now : Z) : string :=
  let '(y, m, d) := civil_from_days (now / 86400000) in
  let year :=
    if Z.leb 0 y && Z.leb y 9999 then padStart 4 (show y)
    else (if Z.ltb y 0 then "-" else "+") +:+ padStart 6 (show (Z.abs y)) in
  year +:+ "-" +:+ padStart 2 (show m) +:+ "-" +:+ padStart 2 (show d).

(** [String.prototype.toLowerCase] on strings of 7-bit characters: the
    letters A-Z go to a-z, every other character stays. *)
Definition lower_char (a : ascii) : ascii :=
  let n := nat_of_ascii a in
  if Nat.leb 65 n && Nat.leb n 90 then ascii_of_nat (n + 32) else a.

Fixpoint toLowerCase (s : string) : string :=
  match s with
  | EmptyString => EmptyString
  | String a rest => String (lower_char a) (toLowerCase rest)
  end.

(** What a JavaScript expression evaluates to: a value, or a thrown
    exception (a rejected promise, once awaited). *)
Inductive exn : Type :=
  | Error (message : string)
  | Rejected (reason : string)
  | TypeError.

Inductive result (A : Type) : Type :=
  | Ok (a : A)
  | Throw (e : exn).
Arguments Ok {A} a.
Arguments Throw {A} e.

(** The fields of a fetch [Response] that the service reads; [json] is what
    awaiting [response.json()] gives. *)
Record Response : Type := mkResponse {
  ok : bool;
  status : Z;
  statusText : string;
  json : result value;
}.

(** One upstream exchange: what awaiting [fetch(url)] and the body gives,
    and how long the caller was suspended. *)
Record reply : Type := mkReply {
  elapsed : Z;
  answer : result Response;
}.

Fixpoint assoc (name : string) (fields : list (string * value)) : option value :=
  match fields with
  | [] => None
  | (k, v) :: rest => if String.eqb k name then Some v else assoc name rest
  end.

(** Property read [v.name], for a [name] that no built-in prototype
    defines (here: standings, teamAbbrev, default). *)
Definition get_prop (v : value) (name : string) : result value :=
  match v with
  | VUndefined | VNull => Throw TypeError
  | VObj fields => Ok (default VUndefined (assoc name fields))
  | VBool _ | VNum _ | VStr _ | VArr _ => Ok VUndefined
  end.

(** The method call [v.toLowerCase()]: only a string has the method. *)
Definition call_toLowerCase (v : value) : result string :=
  match v with
  | VStr s => Ok (toLowerCase s)
  | _ => Throw TypeError
  end.

(** [Array.prototype.find] with a callback that may throw. *)
Fixpoint find (p : value → result bool) (items : list value) : result value :=
  match items with
  | [] => Ok VUndefined
  | t :: rest =>
      match p t with
      | Throw e => Throw e
      | Ok true => Ok t
      | Ok false => find p rest
      end
  end.

(** ** The process: the singleton cache, the clock, the upstream *)

Record world : Type := mkWorld {
  store : MemoryCache;
  clock : Z;
  requests : list string;
}.

(** Time passing between two calls of the service. *)
Definition later (d : Z) (w : world) : world :=
  {| store := store w; clock := clock w + d; requests := requests w |}.

Definition M (A : Type) : Type := world → result A * world.

#[export] Instance M_ret : MRet M := λ A a w, (Ok a, w).
#[export] Instance M_bind : MBind M := λ A B f m w,
  match m w with
  | (Ok a, w') => f a w'
  | (Throw e, w') => (Throw e, w')
  end.

Definition throw {A} (e : exn) : M A := λ w, (Throw e, w).

Definition lift {A} (r : result A) : M A := λ w, (r, w).

(** [new Date().toISOString().split('T')[0]] *)
Definition today : M string := λ w, (Ok (isoDate (clock w)), w).

Definition cache_get (key : string) : M value := λ w,
  let '(v, c) := MemoryCache.get (clock w) key (store w) in
  (Ok v, {| store := c; clock := clock w; requests := requests w |}).

Definition cache_set (key : string) (d : value) (ttlMs : Z) : M unit := λ w,
  (Ok tt, {| store := MemoryCache.set (clock w) key d ttlMs (store w);
             clock := clock w; requests := requests w |}).

(** ** services/nhl.ts *)

Definition NHL_API_BASE : string := "https://api-web.nhle.com/v1".

Section Service.

(** The upstream provider: its reply to the [n]-th request of the process
    (counted from 0), made to the given URL. *)
Variable upstream : nat → string → reply.

(** [await fetch(url)] followed by the await of the body: the request is
    logged, the clock moves by the time the caller was suspended. *)
Definition fetch (url : string) : M Response := λ w,
  let r := upstream (length (requests w)) url in
  (answer r, {| store := store w;
                clock := clock w + elapsed r;
                requests := requests w ++ [url] |}).

Definition fetchNHL (endpoint : string) : M value :=
  let url := NHL_API_BASE +:+ endpoint in
  response ← fetch url;
  if negb (ok response)
  then throw (Error ("NHL API error: " +:+ show (status response)
                       +:+ " " +:+ statusText response))
  else lift (json response).

Definition getLiveScores : M value :=
  today ← today;
  let cacheKey := "live-scores:" +:+ today in
  cached ← cache_get cacheKey;
  if truthy cached then mret cached else
  data ← fetchNHL ("/schedule/" +:+ today);
  _ ← cache_set cacheKey data CACHE_TTL.LIVE_SCORES;
  mret data.

Definition getSchedule (date : string) : M value :=
  let cacheKey := "schedule:" +:+ date in
  cached ← cache_get cacheKey;
  if truthy cached then mret cached else
  data ← fetchNHL ("/schedule/" +:+ date);
  _ ← cache_set cacheKey data CACHE_TTL.SCHEDULE;
  mret data.

Definition getGameById (gameId : string) : M value :=
  let cacheKey := "game:" +:+ gameId in
  cached ← cache_get cacheKey;
  if truthy cached then mret cached else
  data ← fetchNHL ("/gamecenter/" +:+ gameId +:+ "/landing");
  _ ← cache_set cacheKey data CACHE_TTL.GAME_DETAILS;
  mret data.

Definition getStandings : M value :=
  currentDate ← today;
  let cacheKey := "standings:" +:+ currentDate in
  cached ← cache_get cacheKey;
  if truthy cached then mret cached else
  data ← fetchNHL ("/standings/" +:+ currentDate);
  _ ← cache_set cacheKey data CACHE_TTL.STANDINGS;
  mret data.

Definition getPlayerStats (playerId : string) : M value :=
  let cacheKey := "player:" +:+ playerId in
  cached ← cache_get cacheKey;
  if truthy cached then mret cached else
  data ← fetchNHL ("/player/" +:+ playerId +:+ "/landing");
  _ ← cache_set cacheKey data CACHE_TTL.PLAYER_STATS;
  mret data.

(** The callback of [find] in [getTeamStats]:
    [t.teamAbbrev.default.toLowerCase() === abbrev.toLowerCase()]. *)
Definition abbrev_matches (abbrev : string) (t : value) : result bool :=
  match get_prop t "teamAbbrev" with
  | Throw e => Throw e
  | Ok ta =>
      match get_prop ta "default" with
      | Throw e => Throw e
      | Ok d =>
          match call_toLowerCase d with
          | Throw e => Throw e
          | Ok s => Ok (String.eqb s (toLowerCase abbrev))
          end
      end
  end.

Definition getTeamStats (abbrev : string) : M value :=
  standings ← getStandings;
  list ← lift (get_prop standings "standings");
  team ← lift (match list with
               | VArr items => find (abbrev_matches abbrev) items
               | _ => Throw TypeError
               end);
  mret (if truthy team then team else VNull).

(** *** The read-through contract of the specification

    The five cached categories, and for each its key builder, its
    upstream endpoint and its TTL; [read_through] is the contract of the
    specification (look up, return on a hit, otherwise fetch, store with
    the category's TTL, return), to be compared with the functions
    above. *)

Inductive query : Type :=
  | LiveScores
  | Schedule (date : string)
  | Game (gameId : string)
  | Standings
  | Player (playerId : string).

Definition ask (q : query) : M value :=
  match q with
  | LiveScores => getLiveScores
  | Schedule date => getSchedule date
  | Game gameId => getGameById gameId
  | Standings => getStandings
  | Player playerId => getPlayerStats playerId
  end.

(** The cache key, the upstream URL and the TTL of a query made when the
    clock reads [now]. *)
Definition key_of (now : Z) (q : query) : string :=
  match q with
  | LiveScores => "live-scores:" +:+ isoDate now
  | Schedule date => "schedule:" +:+ date
  | Game gameId => "game:" +:+ gameId
  | Standings => "standings:" +:+ isoDate now
  | Player playerId => "player:" +:+ playerId
  end.

Definition url_of (now : Z) (q : query) : string :=
  NHL_API_BASE +:+
  match q with
  | LiveScores => "/schedule/" +:+ isoDate now
  | Schedule date => "/schedule/" +:+ date
  | Game gameId => "/gamecenter/" +:+ gameId +:+ "/landing"
  | Standings => "/standings/" +:+ isoDate now
  | Player playerId => "/player/" +:+ playerId +:+ "/landing"
  end.

Definition ttl_of (q : query) : Z :=
  match q with
  | LiveScores => 30 * 1000
  | Schedule _ => 5 * 60 * 1000
  | Game _ => 30 * 1000
  | Standings => 5 * 60 * 1000
  | Player _ => 10 * 60 * 1000
  end.

(** What awaiting the upstream for [url] gives, as a value or a failure:
    a transport failure, a response that is not ok, or a body that does
    not parse, are the failures. *)
Definition fetched (r : reply) : result value :=
  match answer r with
  | Throw e => Throw e
  | Ok response =>
      if ok response then json response
      else Throw (Error ("NHL API error: " +:+ show (status response)
                           +:+ " " +:+ statusText response))
  end.

Definition read_through (q : query) : M value := λ w,
  let key := key_of (clock w) q in
  let url := url_of (clock w) q in
  let '(cached, c) := MemoryCache.get (clock w) key (store w) in
  if truthy cached
  then (Ok cached, {| store := c; clock := clock w; requests := requests w |})
  else
    let r := upstream (length (requests w)) url in
    let t := clock w + elapsed r in
    match fetched r with
    | Ok v =>
        (Ok v, {| store := MemoryCache.set t key v (ttl_of q) c;
                  clock := t; requests := requests w ++ [url] |})
    | Throw e =>
        (Throw e, {| store := c; clock := t; requests := requests w ++ [url] |})
    end.

End Service.

(** ** The specification's sentences that the code does not satisfy as
    they are written, as propositions *)

(** P1 as written: visible strictly before [t] has elapsed, absent from
    [t] on. *)
Definition expiry_as_stated : Prop :=
  ∀ (k : string) (v : value) (t s d : Z) (c : MemoryCache),
    0 ≤ t → 0 ≤ d →
    (d < t → (MemoryCache.get (s + d) k (MemoryCache.set s k v t c)).1 = v) ∧
    (t ≤ d → (MemoryCache.get (s + d) k (MemoryCache.set s k v t c)).1 = VNull).

(** P4 as written, for whatever the upstream sends. *)
Definition read_through_as_stated : Prop :=
  ∀ (upstream : nat → string → reply) (q : query) (w : world) (v : value),
    cache (store w) = ∅ →
    fetched (upstream (length (requests w)) (url_of (clock w) q)) = Ok v →
    let w1 := (ask upstream q w).2 in
    requests w1 = requests w ++ [url_of (clock w) q] ∧
    data <$> cache (store w1) !! key_of (clock w) q = Some v ∧
    (key_of (clock w1) q = key_of (clock w) q →
     (ask upstream q w1).1 = Ok v ∧
     requests (ask upstream q w1).2 = requests w1).

(** A stored falsy value read back as the [null] of a key never set. *)
Definition falsy_reads_as_absent : Prop :=
  ∀ (k : string) (v : value) (now : Z) (c c0 : MemoryCache) (e : CacheEntry),
    cache c !! k = Some e → data e = v → falsy v = true → now ≤ expiresAt e →
    cache c0 !! k = None →
    (MemoryCache.get now k c).1 = (MemoryCache.get now k c0).1.

(** An entry is visible to [get]: it is in the map, and [get] returns its
    data and leaves it there. *)
Definition visible (now : Z) (k : string) (c : MemoryCache) : Prop :=
  ∃ e, cache c !! k = Some e ∧ MemoryCache.get now k c = (data e, c).

(** The team's abbreviation, for a value of the shape of
    [NHLTeamStanding]. *)
Definition abbrev_of (t : value) : option string :=
  match get_prop t "teamAbbrev" with
  | Ok (VObj g) =>
      match assoc "default" g with
      | Some (VStr a) => Some a
      | _ => None
      end
  | _ => None
  end.

(** An entry carries the requested abbreviation, up to letter case. *)
Definition team_matches (abbrev : string) (t : value) : Prop :=
  ∃ a, abbrev_of t = Some a ∧ toLowerCase a = toLowerCase abbrev.

(** A string of 7-bit characters only: the strings on which [toLowerCase]
    above is the engine's (beyond them the engine lowers other letters
    too, which the embedding does not follow). *)
Fixpoint seven_bit (s : string) : bool :=
  match s with
  | EmptyString => true
  | String a rest => Nat.ltb (nat_of_ascii a) 128 && seven_bit rest
  end.

(** A standings entry that carries an abbreviation of 7-bit characters. *)
Definition ascii_team (t : value) : Prop :=
  ∃ a, abbrev_of t = Some a ∧ seven_bit a = true.

(** ** Sample data: the fixtures of services/nhl.test.ts *)

Module Sample.

(** The host before the cache module is loaded, and the singleton
    [cache = new MemoryCache()]. *)
Definition host0 : timers := {| running := ∅; next_handle := 1%nat |}.
Definition cache0 : MemoryCache := (MemoryCache.new host0).1.
Definition host1 : timers := (MemoryCache.new host0).2.

(** [vi.setSystemTime(new Date('2024-01-15'))], nothing requested yet. *)
Definition world0 : world :=
  {| store := cache0; clock := 1705276800000; requests := [] |}.

(** An upstream that answers every request with 200 and the body [v],
    after 120 ms. *)
Definition responds (v : value) : nat → string → reply := λ _ _,
  {| elapsed := 120;
     answer := Ok {| ok := true; status := 200; statusText := "OK";
                     json := Ok v |} |}.

(** An upstream that answers every request with 404. *)
Definition not_found : nat → string → reply := λ _ _,
  {| elapsed := 120;
     answer := Ok {| ok := false; status := 404; statusText := "Not Found";
                     json := Throw (Rejected "Unexpected end of JSON input") |} |}.

Definition team (name abbrev place : string) (wins : Z) : value :=
  VObj [("teamName", VObj [("default", VStr name)]);
        ("teamAbbrev", VObj [("default", VStr abbrev)]);
        ("wins", VNum wins);
        ("placeName", VObj [("default", VStr place)])].

Definition bruins : value := team "Bruins" "BOS" "Boston" 30.
Definition leafs : value := team "Maple Leafs" "TOR" "Toronto" 28.

Definition mockStandings : value :=
  VObj [("standings", VArr [bruins; leafs])].

Definition mockSchedule : value :=
  VObj [("gameWeek", VArr [VObj [("date", VStr "2024-01-15");
                                 ("numberOfGames", VNum 2)]])].

End Sample.

(** ** Sequences of service calls *)

(** What the process does between two observations: a call of one of the
    five cached queries (its result dropped), or time passing. *)
Inductive step : Type :=
  | Call (q : query)
  | Wait (d : Z).

Fixpoint run (upstream : nat → string → reply) (steps : list step) (w : world)
  : world :=
  match steps with
  | [] => w
  | Call q :: rest => run upstream rest (ask upstream q w).2
  | Wait d :: rest => run upstream rest (later d w)
  end.

(** Every value in the cache is a body that the upstream sent in reply to
    a logged request, and sits under the key of a query with that URL. *)
Definition from_upstream (upstream : nat → string → reply) (w : world) : Prop :=
  ∀ k e, cache (store w) !! k = Some e →
    ∃ i now q, k = key_of now q ∧ requests w !! i = Some (url_of now q)
               ∧ fetched (upstream i (url_of now q)) = Ok (data e).

(** ** The Express routers: routes/players.ts and routes/teams.ts *)

(** What a handler sends: the status ([res.status], 200 by default), the
    headers it sets itself, and the value handed to [res.json] ([None] for
    [res.end()]). *)
Record HttpResponse : Type := mkHttpResponse {
  statusCode : Z;
  headers : list (string * string);
  sent : option value;
}.

Definition is_digit (a : ascii) : bool :=
  let n := nat_of_ascii a in Nat.leb 48 n && Nat.leb n 57.

Definition is_letter (a : ascii) : bool :=
  let n := nat_of_ascii a in
  (Nat.leb 65 n && Nat.leb n 90) || (Nat.leb 97 n && Nat.leb n 122).

Fixpoint all_chars (p : ascii → bool) (s : string) : bool :=
  match s with
  | EmptyString => true
  | String a rest => p a && all_chars p rest
  end.

(** The test of the regular expression ^\d+$ (one or more of 0-9, the
    whole string). *)
Definition numeric_id (s : string) : bool :=
  negb (String.eqb s "") && all_chars is_digit s.

(** The test of ^[A-Za-z]{2,4}$ (two to four letters, the whole string). *)
Definition team_id_format (s : string) : bool :=
  Nat.leb 2 (String.length s) && Nat.leb (String.length s) 4
  && all_chars is_letter s.

(** The three kinds of exception of the model are instances of [Error]:
    [fetch()] and [response.json()] reject with one, and so is the
    engine's TypeError. *)
Definition instanceof_Error (e : exn) : bool :=
  match e with
  | Error _ | Rejected _ | TypeError => true
  end.

(** ToString, as a template literal applies it to [undefined], [null], a
    boolean, a string, an integer below 10^21 in absolute value (printed
    in decimal), and to the arrays and objects none of whose objects has a
    [toString] field of its own; on the other values the engine differs
    (exponent notation, a TypeError), and nothing below is stated of them. *)
Fixpoint to_string (v : value) : string :=
  match v with
  | VUndefined => "undefined"
  | VNull => "null"
  | VBool b => if b then "true" else "false"
  | VNum n => show n
  | VStr s => s
  | VArr items =>
      (fix join (l : list value) : string :=
         match l with
         | [] => ""
         | x :: rest =>
             (match x with
              | VUndefined | VNull => ""
              | _ => to_string x
              end)
             +:+ (match rest with
                  | [] => ""
                  | _ => "," +:+ join rest
                  end)
         end) items
  | VObj _ => "[object Object]"
  end.

(** [Array.prototype.map] with a callback that may throw. *)
Fixpoint map_result (f : value → result value) (items : list value)
  : result (list value) :=
  match items with
  | [] => Ok []
  | t :: rest =>
      match f t with
      | Throw e => Throw e
      | Ok y =>
          match map_result f rest with
          | Throw e => Throw e
          | Ok ys => Ok (y :: ys)
          end
      end
  end.

(** [v.first.second] *)
Definition get_prop2 (v : value) (first second : string) : result value :=
  match get_prop v first with
  | Throw e => Throw e
  | Ok x => get_prop x second
  end.

Definition respond (code : Z) (v : value) : HttpResponse :=
  {| statusCode := code; headers := []; sent := Some v |}.

Section Routers.

Variable upstream : nat → string → reply.

(** The text of the engine's TypeError, which the handlers copy into
    their answer; the code does not fix it. *)
Variable engine_message : string.

(** [error.message] *)
Definition message (e : exn) : string :=
  match e with
  | Error m => m
  | Rejected m => m
  | TypeError => engine_message
  end.

(** The answer of a [catch (error)] block with the given fallback text. *)
Definition internal_error (fallback : string) (error : exn) : HttpResponse :=
  respond 500
    (VObj [("error", VStr "Internal server error");
           ("message",
            VStr (if instanceof_Error error then message error else fallback))]).

(** routes/players.ts, GET /:playerId *)
Definition players_by_id (playerId : string) (w : world) : HttpResponse * world :=
  if negb (numeric_id playerId)
  then (respond 400 (VObj [("error", VStr "Invalid player ID");
                        ("message", VStr "Player ID must be numeric")]), w)
  else
    match getPlayerStats upstream playerId w with
    | (Ok playerStats, w') => (respond 200 playerStats, w')
    | (Throw error, w') => (internal_error "Failed to fetch player" error, w')
    end.

(** The callback of [map] in GET /. *)
Definition team_summary (team : value) : result value :=
  match get_prop2 team "teamAbbrev" "default" with
  | Throw e => Throw e
  | Ok id =>
      match get_prop2 team "placeName" "default" with
      | Throw e => Throw e
      | Ok place =>
          match get_prop2 team "teamName" "default" with
          | Throw e => Throw e
          | Ok name =>
              match get_prop team "conferenceName",
                    get_prop team "divisionName",
                    get_prop team "teamLogo" with
              | Ok conference, Ok division, Ok logo =>
                  Ok (VObj [("id", id);
                            ("name", VStr (to_string place +:+ " " +:+ to_string name));
                            ("abbreviation", id);
                            ("conference", conference);
                            ("division", division);
                            ("logo", logo)])
              | Throw e, _, _ | _, Throw e, _ | _, _, Throw e => Throw e
              end
          end
      end
  end.

(** routes/teams.ts, GET / *)
Definition teams_index (w : world) : HttpResponse * world :=
  match getStandings upstream w with
  | (Ok standings, w') =>
      match get_prop standings "standings" with
      | Ok (VArr items) =>
          match map_result team_summary items with
          | Ok teams => (respond 200 (VArr teams), w')
          | Throw error => (internal_error "Failed to fetch teams" error, w')
          end
      | Ok _ => (internal_error "Failed to fetch teams" TypeError, w')
      | Throw error => (internal_error "Failed to fetch teams" error, w')
      end
  | (Throw error, w') => (internal_error "Failed to fetch teams" error, w')
  end.

(** routes/teams.ts, GET /:teamId *)
Definition teams_by_id (teamId : string) (w : world) : HttpResponse * world :=
  if negb (team_id_format teamId)
  then (respond 400
          (VObj [("error", VStr "Invalid team ID");
                 ("message",
                  VStr "Team ID must be a 2-4 letter abbreviation (e.g., BOS, TOR, VGK)")]),
        w)
  else
    match getTeamStats upstream teamId w with
    | (Ok teamStats, w') =>
        if negb (truthy teamStats)
        then (respond 404 (VObj [("error", VStr "Team not found")]), w')
        else (respond 200 teamStats, w')
    | (Throw error, w') => (internal_error "Failed to fetch team" error, w')
    end.

End Routers.

(** A standings entry of the declared shape, as far as GET / reads it: it
    carries an abbreviation of 7-bit characters, and the [default] of its
    [placeName] and of its [teamName] are strings. *)
Definition listable (t : value) : Prop :=
  ascii_team t
  ∧ (∃ place, get_prop2 t "placeName" "default" = Ok (VStr place))
  ∧ (∃ name, get_prop2 t "teamName" "default" = Ok (VStr name)).

Definition not_found_body : value := VObj [("error", VStr "Team not found")].

(** ** The uncached service: api/_lib/nhl.ts

    Its [fetchNHL] is, word for word, the one of services/nhl.ts. *)

Module Lib.
Section Lib.

Variable upstream : nat → string → reply.

Definition getSchedule (date : string) : M value :=
  fetchNHL upstream ("/schedule/" +:+ date).

Definition getLiveScores : M value :=
  today ← today;
  getSchedule today.

Definition getGameById (gameId : string) : M value :=
  fetchNHL upstream ("/gamecenter/" +:+ gameId +:+ "/landing").

Definition getStandings : M value :=
  currentDate ← today;
  fetchNHL upstream ("/standings/" +:+ currentDate).

Definition getTeamStats (abbrev : string) : M value :=
  standings ← getStandings;
  list ← lift (get_prop standings "standings");
  team ← lift (match list with
               | VArr items => find (abbrev_matches abbrev) items
               | _ => Throw TypeError
               end);
  mret (if truthy team then team else VNull).

(** The uncached counterpart of a cached query; api/_lib/nhl.ts has none
    for the player statistics. *)
Definition ask (q : query) : option (M value) :=
  match q with
  | LiveScores => Some getLiveScores
  | Schedule date => Some (getSchedule date)
  | Game gameId => Some (getGameById gameId)
  | Standings => Some getStandings
  | Player _ => None
  end.

End Lib.
End Lib.

(** ** The serverless handlers under api/: the games list, one game, the
    teams list and one team *)

(** The parts of a request that the handlers read; a query parameter is a
    string, or an array of strings when it is given more than once. *)
Record VercelRequest : Type := mkRequest {
  req_method : string;
  req_query : list (string * value);
}.

(** [req.query.name] *)
Definition query_param (req : VercelRequest) (name : string) : value :=
  default VUndefined (assoc name (req_query req)).

(** The three headers every handler sets before anything else. *)
Definition cors : list (string * string) :=
  [("Access-Control-Allow-Origin", "*");
   ("Access-Control-Allow-Methods", "GET, OPTIONS");
   ("Access-Control-Allow-Headers", "Content-Type")].

Definition with_cors (r : HttpResponse) : HttpResponse :=
  {| statusCode := statusCode r; headers := cors; sent := sent r |}.

(** The test of ^\d{4}-\d{2}-\d{2}$ *)
Definition date_format (s : string) : bool :=
  match s with
  | String y1 (String y2 (String y3 (String y4 (String h1
      (String m1 (String m2 (String h2 (String d1 (String d2 EmptyString))))))))) =>
      is_digit y1 && is_digit y2 && is_digit y3 && is_digit y4
      && Ascii.eqb h1 "-" && is_digit m1 && is_digit m2
      && Ascii.eqb h2 "-" && is_digit d1 && is_digit d2
  | _ => false
  end.

Module Vercel.
Section Vercel.

Variable upstream : nat → string → reply.
Variable engine_message : string.

(** What the handlers have in common: the CORS headers, the answer to
    OPTIONS and to the methods other than GET, and the [try]/[catch]
    around the rest, [body] with its fallback text. *)
Definition guarded (fallback : string) (req : VercelRequest)
    (body : world → result HttpResponse * world) (w : world)
  : HttpResponse * world :=
  if String.eqb (req_method req) "OPTIONS"
  then ({| statusCode := 200; headers := cors; sent := None |}, w)
  else if negb (String.eqb (req_method req) "GET")
  then (with_cors (respond 405 (VObj [("error", VStr "Method not allowed")])), w)
  else
    match body w with
    | (Ok r, w') => (with_cors r, w')
    | (Throw error, w') =>
        (with_cors (internal_error engine_message fallback error), w')
    end.

(** The games list: [getSchedule(date)] for a [date] query, [getLiveScores()]
    without one. *)
Definition games (req : VercelRequest) : world → HttpResponse * world :=
  guarded "Failed to fetch games" req (λ w,
    let date := query_param req "date" in
    if truthy date
    then
      if negb (date_format (to_string date))
      then (Ok (respond 400
                  (VObj [("error", VStr "Invalid date format");
                         ("message", VStr "Date must be in YYYY-MM-DD format")])), w)
      else
        match Lib.getSchedule upstream (to_string date) w with
        | (Ok schedule, w') => (Ok (respond 200 schedule), w')
        | (Throw e, w') => (Throw e, w')
        end
    else
      match Lib.getLiveScores upstream w with
      | (Ok liveScores, w') => (Ok (respond 200 liveScores), w')
      | (Throw e, w') => (Throw e, w')
      end).

(** One game, api/games/[gameId].ts. *)
Definition game (req : VercelRequest) : world → HttpResponse * world :=
  guarded "Failed to fetch game" req (λ w,
    match query_param req "gameId" with
    | VStr gameId =>
        match Lib.getGameById upstream gameId w with
        | (Ok gameData, w') => (Ok (respond 200 gameData), w')
        | (Throw e, w') => (Throw e, w')
        end
    | _ => (Ok (respond 400 (VObj [("error", VStr "Invalid game ID")])), w)
    end).

(** The teams list. *)
Definition teams (req : VercelRequest) : world → HttpResponse * world :=
  guarded "Failed to fetch teams" req (λ w,
    match Lib.getStandings upstream w with
    | (Ok standings, w') =>
        match get_prop standings "standings" with
        | Ok (VArr items) =>
            match map_result team_summary items with
            | Ok teams => (Ok (respond 200 (VArr teams)), w')
            | Throw e => (Throw e, w')
            end
        | Ok _ => (Throw TypeError, w')
        | Throw e => (Throw e, w')
        end
    | (Throw e, w') => (Throw e, w')
    end).

(** One team. *)
Definition team (req : VercelRequest) : world → HttpResponse * world :=
  guarded "Failed to fetch team" req (λ w,
    match query_param req "teamId" with
    | VStr teamId =>
        match Lib.getTeamStats upstream teamId w with
        | (Ok teamStats, w') =>
            if negb (truthy teamStats)
            then (Ok (respond 404 (VObj [("error", VStr "Team not found")])), w')
            else (Ok (respond 200 teamStats), w')
        | (Throw e, w') => (Throw e, w')
        end
    | _ => (Ok (respond 400 (VObj [("error", VStr "Invalid team ID")])), w)
    end).

End Vercel.
End Vercel.

(** ** Calls in flight

    A call runs without interruption up to its [await] of the upstream
    and again from the moment the reply is there; between the two, other
    calls run. [start] is the first part and [resume] the second, for the
    contract [read_through] that the five functions implement. *)

Record pending : Type := mkPending {
  p_key : string;
  p_ttl : Z;
  p_due : Z;
  p_fetched : result value;
}.

Section InFlight.

Variable upstream : nat → string → reply.

(** The lookup; on a miss the request is sent, and the call waits for the
    reply, due [elapsed] after the request. *)
Definition start (q : query) (w : world) : (value + pending) * world :=
  let key := key_of (clock w) q in
  let url := url_of (clock w) q in
  let '(cached, c) := MemoryCache.get (clock w) key (store w) in
  if truthy cached
  then (inl cached, {| store := c; clock := clock w; requests := requests w |})
  else
    let r := upstream (length (requests w)) url in
    (inr {| p_key := key; p_ttl := ttl_of q;
            p_due := clock w + elapsed r; p_fetched := fetched r |},
     {| store := c; clock := clock w; requests := requests w ++ [url] |}).

(** The rest of the call, run when the reply is there (not before it is
    due): the write and the return, or the failure. *)
Definition resume (p : pending) (w : world) : result value * world :=
  let t := Z.max (clock w) (p_due p) in
  match p_fetched p with
  | Ok v =>
      (Ok v, {| store := MemoryCache.set t (p_key p) v (p_ttl p) (store w);
                clock := t; requests := requests w |})
  | Throw e => (Throw e, {| store := store w; clock := t; requests := requests w |})
  end.

End InFlight.

(** ** The cache store *)

Section Store.

Implicit Types (c : MemoryCache) (k key : string) (v : value) (e : CacheEntry).

Lemma get_absent now k c :
  cache c !! k = None → MemoryCache.get now k c = (VNull, c).
Proof. intros H. unfold MemoryCache.get. by rewrite H. Qed.

Lemma get_live now k c e :
  cache c !! k = Some e → now ≤ expiresAt e →
  MemoryCache.get now k c = (data e, c).
Proof.
  intros H Hle. unfold MemoryCache.get. rewrite H.
  destruct (Z.gtb_spec now (expiresAt e)); [lia | done].
Qed.

Lemma get_expired now k c e :
  cache c !! k = Some e → expiresAt e < now →
  MemoryCache.get now k c = (VNull, MemoryCache.delete k c).
Proof.
  intros H Hlt. unfold MemoryCache.get. rewrite H.
  destruct (Z.gtb_spec now (expiresAt e)); [done | lia].
Qed.

Lemma lookup_set s k v t c :
  cache (MemoryCache.set s k v t c) !! k
  = Some {| data := v; expiresAt := s + t |}.
Proof. apply lookup_insert_eq. Qed.

Lemma lookup_set_ne s k k' v t c :
  k ≠ k' → cache (MemoryCache.set s k v t c) !! k' = cache c !! k'.
Proof. intros. by apply lookup_insert_ne. Qed.

Lemma lookup_deleted k c : cache (MemoryCache.delete k c) !! k = None.
Proof. apply lookup_delete_eq. Qed.

(** A read never makes an entry appear, and changes no other key. *)
Lemma get_lookup now k k' c :
  cache (MemoryCache.get now k c).2 !! k' = cache c !! k'
  ∨ (k' = k ∧ cache (MemoryCache.get now k c).2 !! k' = None).
Proof.
  unfold MemoryCache.get. destruct (cache c !! k) as [e|] eqn:H; [|by left].
  destruct (Z.gtb now (expiresAt e)); [|by left]. simpl.
  destruct (decide (k' = k)) as [->|Hne].
  - right. split; [done | apply lookup_delete_eq].
  - left. by apply lookup_delete_ne.
Qed.

(** The interval handle is written by the constructor and by [destroy]
    only. *)
Lemma get_cleanupInterval now k c :
  cleanupInterval (MemoryCache.get now k c).2 = cleanupInterval c.
Proof.
  unfold MemoryCache.get. destruct (cache c !! k) as [e|]; [|done].
  by destruct (Z.gtb now (expiresAt e)).
Qed.

(** Reads of a key that has no entry. *)
Lemma gets_absent k times c :
  cache c !! k = None →
  MemoryCache.gets k times c = (replicate (length times) VNull, c).
Proof.
  intros H. induction times as [|n times IH]; [done|].
  simpl. rewrite (get_absent _ _ _ H), IH. done.
Qed.

(** Reads of a key at non-decreasing clock readings: each one is decided
    by the entry's expiry alone. *)
Lemma gets_entry k times c e :
  cache c !! k = Some e → StronglySorted Z.le times →
  (MemoryCache.gets k times c).1
  = (λ now, if Z.gtb now (expiresAt e) then VNull else data e) <$> times.
Proof.
  intros H Hs. induction Hs as [|n times Hs IH Hall]; [done|].
  simpl. destruct (Z.gtb_spec n (expiresAt e)) as [Hgt|Hle].
  - rewrite (get_expired _ _ _ _ H Hgt).
    rewrite (gets_absent _ _ _ (lookup_deleted k c)). simpl. f_equal.
    clear IH Hs. induction Hall as [|m times Hm Hall IH]; [done|].
    simpl. destruct (Z.gtb_spec m (expiresAt e)); [by f_equal | lia].
  - rewrite (get_live _ _ _ _ H Hle).
    destruct (MemoryCache.gets k times c) as [vs c2] eqn:E.
    simpl in *. by rewrite IH.
Qed.

End Store.

Section StoreProperties.

Implicit Types (c : MemoryCache) (k key : string) (v : value) (e : CacheEntry).

(** Reads of a live entry, in any number and order, return its data and
    leave the cache as it is. *)
Lemma gets_live k times c e :
  cache c !! k = Some e → Forall (λ now, now ≤ expiresAt e) times →
  MemoryCache.gets k times c = (replicate (length times) (data e), c).
Proof.
  intros H Hall. induction Hall as [|n times Hn Hall IH]; [done|].
  simpl. by rewrite (get_live _ _ _ _ H Hn), IH.
Qed.

(** What the sweep keeps: the entries that have not expired. *)
Lemma lookup_cleanup now k c e :
  cache (MemoryCache.cleanup now c) !! k = Some e
  ↔ cache c !! k = Some e ∧ now ≤ expiresAt e.
Proof.
  unfold MemoryCache.cleanup. simpl. rewrite map_lookup_filter_Some. simpl.
  split; intros [H Hle]; (split; [done | lia]).
Qed.

(** The sweep removes no entry that a read at the same or an earlier
    time would return: reads do not depend on the sweep. *)
Lemma get_after_cleanup now swept k c :
  swept ≤ now →
  (MemoryCache.get now k (MemoryCache.cleanup swept c)).1
  = (MemoryCache.get now k c).1.
Proof.
  intros Hle. unfold MemoryCache.get, MemoryCache.cleanup. simpl.
  destruct (cache c !! k) as [e|] eqn:H.
  - destruct (decide (swept > expiresAt e)) as [Hgt|Hngt].
    + rewrite map_lookup_filter_None_2.
      * destruct (Z.gtb_spec now (expiresAt e)); [done | lia].
      * right. intros e' He'. simpl. naive_solver.
    + rewrite (map_lookup_filter_Some_2 _ _ _ e); [|done|done].
      by destruct (Z.gtb now (expiresAt e)).
  - rewrite map_lookup_filter_None_2; [done | by left].
Qed.

(** C1 (amended). After [set(k, v, t)] with [t >= 0], done when the clock
    reads [s], a [get(k)] at the clock reading [s + d] returns [v] (and
    leaves the entry) whenever [d <= t], and returns [null] whenever
    [d > t]; the boundary [d = t] is still a hit, so with [t = 0] the
    entry is readable while the clock still reads [s] and expired from
    the next millisecond on. The same holds for every read of a sequence
    of reads at non-decreasing times. *)
Theorem expiry_window k v t s c :
  0 ≤ t →
  let c1 := MemoryCache.set s k v t c in
  (∀ d, d ≤ t → MemoryCache.get (s + d) k c1 = (v, c1)) ∧
  (∀ d, t < d →
     MemoryCache.get (s + d) k c1 = (VNull, MemoryCache.delete k c1)) ∧
  (∀ ds, StronglySorted Z.le ds →
     (MemoryCache.gets k ((λ d, s + d) <$> ds) c1).1
     = (λ d, if Z.leb d t then v else VNull) <$> ds).
Proof.
  intros _ c1. pose proof (lookup_set s k v t c) as H. fold c1 in H.
  split; [|split].
  - intros d Hd. rewrite (get_live _ _ _ _ H); [done | simpl; lia].
  - intros d Hd. rewrite (get_expired _ _ _ _ H); [done | simpl; lia].
  - intros ds Hs. rewrite (gets_entry _ _ _ _ H).
    + rewrite <- list_fmap_compose. apply list_fmap_ext.
      intros i d _. simpl.
      destruct (Z.gtb_spec (s + d) (s + t)), (Z.leb_spec d t); done || lia.
    + induction Hs as [|d ds Hs IH Hall]; [constructor|].
      simpl. constructor; [done|].
      apply Forall_fmap. eapply Forall_impl; [exact Hall|].
      intros d' Hd'. simpl. lia.
Qed.

(** C2. An entry is visible to [get] exactly when [now <= expiresAt];
    once [now > expiresAt], [get] answers as it does for a key with no
    entry, although the entry was still in the map. *)
Theorem visible_iff_not_expired now k c :
  (visible now k c ↔ ∃ e, cache c !! k = Some e ∧ now ≤ expiresAt e) ∧
  (∀ e, cache c !! k = Some e → now > expiresAt e →
     (MemoryCache.get now k c).1 = VNull ∧
     MemoryCache.get now k c = MemoryCache.get now k (MemoryCache.delete k c)).
Proof.
  split.
  - split.
    + intros (e & H & Hget). exists e. split; [done|].
      destruct (Z.le_gt_cases now (expiresAt e)) as [|Hgt]; [done|].
      rewrite (get_expired _ _ _ _ H Hgt) in Hget.
      injection Hget as _ Hc. rewrite <- Hc in H.
      by rewrite lookup_deleted in H.
    + intros (e & H & Hle). exists e. split; [done|].
      by apply get_live.
  - intros e H Hgt.
    rewrite (get_expired _ _ _ _ H) by lia. split; [done|].
    rewrite (get_absent _ _ _ (lookup_deleted k c)). done.
Qed.

(** C7. [set(k, v1, t1)] followed by [set(k, v2, t2)] leaves the cache
    exactly as the second [set] alone would have, so that nothing can
    tell that [v1] was ever stored; and every [get(k)] up to [t2] after
    the second [set] returns [v2]. *)
Theorem overwrite_last_write_wins k v1 v2 t1 t2 s1 s2 c :
  let c2 := MemoryCache.set s2 k v2 t2 (MemoryCache.set s1 k v1 t1 c) in
  c2 = MemoryCache.set s2 k v2 t2 c ∧
  (∀ now, now ≤ s2 + t2 → MemoryCache.get now k c2 = (v2, c2)) ∧
  (∀ times, Forall (λ now, now ≤ s2 + t2) times →
     MemoryCache.gets k times c2 = (replicate (length times) v2, c2)).
Proof.
  intros c2. pose proof (lookup_set s2 k v2 t2 (MemoryCache.set s1 k v1 t1 c)) as H.
  fold c2 in H. split; [|split].
  - unfold c2, MemoryCache.set. simpl. f_equal. apply insert_insert_eq.
  - intros now Hle. by rewrite (get_live _ _ _ _ H).
  - intros times Hall. by rewrite (gets_live _ _ _ _ H).
Qed.

(** C8. After [delete(k)] a [get(k)] returns [null] whatever the entry's
    expiry was and whatever the clock reads; [delete] of a key with no
    entry changes nothing; after [clear()] a [get] of any key returns
    [null]. *)
Theorem delete_and_clear k c now :
  (MemoryCache.get now k (MemoryCache.delete k c)).1 = VNull ∧
  (cache c !! k = None → MemoryCache.delete k c = c) ∧
  (∀ k', (MemoryCache.get now k' (MemoryCache.clear c)).1 = VNull).
Proof.
  split; [|split].
  - by rewrite (get_absent _ _ _ (lookup_deleted k c)).
  - intros H. destruct c as [m ci]. unfold MemoryCache.delete. simpl in *.
    f_equal. by apply delete_id.
  - intros k'. by rewrite get_absent.
Qed.

(** C9. [destroy()] leaves no entry and no interval handle, and the
    interval it held is no longer running, so that the host never runs
    the sweep again; a second [destroy()], straight away or in any later
    state of the destroyed cache, changes neither the host's timers nor
    the result: an empty cache without a timer. *)
Theorem destroy_idempotent c h :
  let c1 := (MemoryCache.destroy c h).1 in
  let h1 := (MemoryCache.destroy c h).2 in
  cache c1 = ∅ ∧ cleanupInterval c1 = None ∧
  (∀ t, cleanupInterval c = Some t →
     (t ∉ running h1) ∧ (∀ now c', MemoryCache.on_interval t now c' h1 = c')) ∧
  MemoryCache.destroy c1 h1 = (c1, h1) ∧
  (∀ c' h', cleanupInterval c' = None →
     MemoryCache.destroy c' h' = (c1, h')).
Proof.
  unfold MemoryCache.destroy. destruct (cleanupInterval c) as [t|] eqn:Ht; simpl.
  - split; [done|]. split; [done|]. split; [|split; [done|]].
    + intros t' [= <-].
      assert (t ∉ running h ∖ {[t]}) as Hnot.
      { intros [_ Hn]%elem_of_difference. apply Hn. by apply elem_of_singleton. }
      split; [done|]. intros now c'. unfold MemoryCache.on_interval. simpl.
      by rewrite bool_decide_eq_false_2.
    + intros c' h' ->. done.
  - split; [done|]. split; [done|]. split; [done|]. split; [done|].
    intros c' h' ->. done.
Qed.

End StoreProperties.

(** ** The read-through service *)

Section ServiceProperties.

Variable upstream : nat → string → reply.

Implicit Types (q : query) (w : world) (v : value).

Local Ltac run :=
  unfold getLiveScores, getSchedule, getGameById, getStandings,
    getPlayerStats, fetchNHL, fetch, cache_get, cache_set, today,
    throw, lift, mbind, M_bind, mret, M_ret.

(** Each of the five functions is the read-through contract, with its
    own key, URL and TTL. *)
Lemma ask_read_through q w : ask upstream q w = read_through upstream q w.
Proof.
  destruct q; unfold ask, read_through, fetched, key_of, url_of; run;
    destruct (MemoryCache.get _ _ (store w)) as [cached c]; simpl;
    (destruct (truthy cached); [done|]);
    (destruct (answer (upstream _ _)) as [response|e]; [|done]);
    (destruct (ok response); simpl; [|done]);
    destruct (json response); done.
Qed.

(** The lookup of a call is a hit. *)
Lemma ask_hit q w :
  truthy (MemoryCache.get (clock w) (key_of (clock w) q) (store w)).1 = true →
  ask upstream q w
  = (Ok (MemoryCache.get (clock w) (key_of (clock w) q) (store w)).1,
     {| store := (MemoryCache.get (clock w) (key_of (clock w) q) (store w)).2;
        clock := clock w; requests := requests w |}).
Proof.
  intros H. rewrite ask_read_through. unfold read_through.
  destruct (MemoryCache.get _ _ (store w)) as [cached c]. simpl in *.
  by rewrite H.
Qed.

(** The lookup of a call is a miss: the upstream is asked, once. *)
Lemma ask_miss q w :
  truthy (MemoryCache.get (clock w) (key_of (clock w) q) (store w)).1 = false →
  let key := key_of (clock w) q in
  let url := url_of (clock w) q in
  let c := (MemoryCache.get (clock w) key (store w)).2 in
  let r := upstream (length (requests w)) url in
  ask upstream q w
  = match fetched r with
    | Ok v =>
        (Ok v, {| store := MemoryCache.set (clock w + elapsed r) key v (ttl_of q) c;
                  clock := clock w + elapsed r;
                  requests := requests w ++ [url] |})
    | Throw e =>
        (Throw e, {| store := c; clock := clock w + elapsed r;
                     requests := requests w ++ [url] |})
    end.
Proof.
  intros H. simpl. rewrite ask_read_through. unfold read_through.
  destruct (MemoryCache.get _ _ (store w)) as [cached c]. simpl in *.
  by rewrite H.
Qed.

(** An entry with falsy data, live or not, makes the lookup a miss. *)
Lemma falsy_entry_misses now k (c : MemoryCache) :
  (∀ e, cache c !! k = Some e → truthy (data e) = false) →
  truthy (MemoryCache.get now k c).1 = false.
Proof.
  intros H. unfold MemoryCache.get.
  destruct (cache c !! k) as [e|] eqn:E; [|done].
  destruct (Z.gtb now (expiresAt e)); [done|]. by apply H.
Qed.

(** A lookup that misses leaves, at its key, no entry or an entry with
    falsy data. *)
Lemma miss_leaves_falsy now k (c : MemoryCache) :
  truthy (MemoryCache.get now k c).1 = false →
  ∀ e, cache (MemoryCache.get now k c).2 !! k = Some e → truthy (data e) = false.
Proof.
  unfold MemoryCache.get. destruct (cache c !! k) as [e0|] eqn:E.
  - destruct (Z.gtb now (expiresAt e0)); simpl.
    + intros _ e. by rewrite lookup_delete_eq.
    + intros H e. rewrite E. by intros [= <-].
  - simpl. intros _ e. by rewrite E.
Qed.

(** A lookup changes no later read, of any key. *)
Lemma get_after_get now n k k' (c : MemoryCache) :
  n ≤ now →
  (MemoryCache.get now k' (MemoryCache.get n k c).2).1
  = (MemoryCache.get now k' c).1.
Proof.
  intros Hle. unfold MemoryCache.get at 2.
  destruct (cache c !! k) as [e|] eqn:E; [|done].
  destruct (Z.gtb_spec n (expiresAt e)) as [Hgt|]; [|done]. simpl.
  destruct (decide (k' = k)) as [->|Hne].
  - rewrite (get_absent _ _ _ (lookup_deleted k c)).
    rewrite (get_expired _ _ _ _ E); [done | lia].
  - unfold MemoryCache.get. simpl.
    rewrite lookup_delete_ne by congruence.
    destruct (cache c !! k') as [e'|]; [|done].
    by destruct (Z.gtb now (expiresAt e')).
Qed.

(** C3 (amended). From an empty cache, a call whose upstream fetch
    succeeds with [v] makes exactly one upstream request, returns [v] and
    leaves the cache with the single entry (key of the category, [v],
    expiry = time of the write + TTL of the category). If moreover [v] is
    truthy, a second call for the same key, made [d <= TTL] after the
    write, makes no upstream request, changes nothing and returns [v]. *)
Theorem read_through_on_miss q w v :
  cache (store w) = ∅ →
  fetched (upstream (length (requests w)) (url_of (clock w) q)) = Ok v →
  let r := upstream (length (requests w)) (url_of (clock w) q) in
  let w1 := (ask upstream q w).2 in
  (ask upstream q w).1 = Ok v ∧
  requests w1 = requests w ++ [url_of (clock w) q] ∧
  cache (store w1)
  = {[ key_of (clock w) q :=
         {| data := v; expiresAt := clock w + elapsed r + ttl_of q |} ]} ∧
  (truthy v = true →
   ∀ d, d ≤ ttl_of q → key_of (clock w1 + d) q = key_of (clock w) q →
     ask upstream q (later d w1) = (Ok v, later d w1)).
Proof.
  intros Hempty Hfetch r w1.
  assert (MemoryCache.get (clock w) (key_of (clock w) q) (store w)
          = (VNull, store w)) as Hget.
  { apply get_absent. by rewrite Hempty. }
  assert (ask upstream q w
          = (Ok v, {| store := MemoryCache.set (clock w + elapsed r)
                                 (key_of (clock w) q) v (ttl_of q) (store w);
                      clock := clock w + elapsed r;
                      requests := requests w ++ [url_of (clock w) q] |})) as Hask.
  { rewrite ask_miss; rewrite Hget; [|done]. simpl. by rewrite Hfetch. }
  unfold w1. rewrite Hask. simpl.
  split; [done|]. split; [done|]. split.
  { rewrite Hempty. apply insert_empty. }
  intros Htruthy d Hd Hkey.
  set (c1 := MemoryCache.set _ _ _ _ _).
  assert (MemoryCache.get (clock w + elapsed r + d) (key_of (clock w) q) c1
          = (v, c1)) as Hget1.
  { apply (get_live _ _ _ _ (lookup_set _ _ _ _ _)). simpl. lia. }
  rewrite ask_hit; simpl; rewrite Hkey, Hget1; done.
Qed.

(** C4. When the lookup of a call misses and its upstream fetch fails
    with [e] (transport failure, a response that is not ok, or a body
    that does not parse), the call throws [e] after one upstream request
    and writes nothing: the cache is the one its own lookup left, which
    differs from the one before the call at most by the removal of the
    already expired entry of the call's key, and which answers every
    later read as the cache before the call would have. The next call for
    the same key asks the upstream again, whenever it is made. *)
Theorem failures_not_cached q w e :
  truthy (MemoryCache.get (clock w) (key_of (clock w) q) (store w)).1 = false →
  fetched (upstream (length (requests w)) (url_of (clock w) q)) = Throw e →
  let key := key_of (clock w) q in
  let w1 := (ask upstream q w).2 in
  (ask upstream q w).1 = Throw e ∧
  requests w1 = requests w ++ [url_of (clock w) q] ∧
  store w1 = (MemoryCache.get (clock w) key (store w)).2 ∧
  (∀ k', cache (store w1) !! k' = cache (store w) !! k'
         ∨ (k' = key ∧ cache (store w1) !! k' = None)) ∧
  (cache (store w) !! key = None → store w1 = store w) ∧
  (∀ now k', clock w ≤ now →
     (MemoryCache.get now k' (store w1)).1 = (MemoryCache.get now k' (store w)).1) ∧
  (∀ d, key_of (clock w1 + d) q = key →
     requests (ask upstream q (later d w1)).2
     = requests w1 ++ [url_of (clock w1 + d) q]).
Proof.
  intros Hmiss Hfetch key w1.
  pose proof (ask_miss q w Hmiss) as Hask. simpl in Hask.
  rewrite Hfetch in Hask. unfold w1. rewrite Hask. simpl.
  split; [done|]. split; [done|]. split; [done|]. split; [|split; [|split]].
  - intros k'. apply get_lookup.
  - intros Hnone. by rewrite (get_absent _ _ _ Hnone).
  - intros now k' Hle. by apply get_after_get.
  - intros d Hkey.
    set (w' := later d _).
    assert (truthy (MemoryCache.get (clock w') (key_of (clock w') q) (store w')).1
            = false) as Hmiss'.
    { unfold w'. simpl. rewrite Hkey. apply falsy_entry_misses.
      by apply miss_leaves_falsy. }
    pose proof (ask_miss q w' Hmiss') as Hask'. simpl in Hask'.
    rewrite Hask'. clear Hfetch. destruct (fetched _); reflexivity.
Qed.

(** C5. With no entry yet for either key, [getLiveScores] and then
    [getSchedule] for the same date, both fetches succeeding, send the
    same URL twice and leave two entries: one under "live-scores:" + date
    expiring 30 000 ms after its write, one under "schedule:" + date
    expiring 300 000 ms after its write; the two keys differ for every
    date, and so do the two TTLs. *)
Theorem ttl_differentiation w v1 v2 :
  let date := isoDate (clock w) in
  let url := NHL_API_BASE +:+ "/schedule/" +:+ date in
  let r1 := upstream (length (requests w)) url in
  let w1 := (getLiveScores upstream w).2 in
  let r2 := upstream (length (requests w1)) url in
  let w2 := (getSchedule upstream date w1).2 in
  cache (store w) !! ("live-scores:" +:+ date) = None →
  cache (store w) !! ("schedule:" +:+ date) = None →
  fetched r1 = Ok v1 →
  fetched r2 = Ok v2 →
  "live-scores:" +:+ date ≠ "schedule:" +:+ date ∧
  CACHE_TTL.LIVE_SCORES = 30000 ∧ CACHE_TTL.SCHEDULE = 300000 ∧
  requests w2 = requests w ++ [url; url] ∧
  cache (store w2) !! ("live-scores:" +:+ date)
  = Some {| data := v1;
            expiresAt := clock w + elapsed r1 + CACHE_TTL.LIVE_SCORES |} ∧
  cache (store w2) !! ("schedule:" +:+ date)
  = Some {| data := v2;
            expiresAt := clock w1 + elapsed r2 + CACHE_TTL.SCHEDULE |}.
Proof.
  intros date url r1 w1 r2 w2 Hlive Hsched Hf1 Hf2.
  assert ("live-scores:" +:+ date ≠ "schedule:" +:+ date) as Hne
    by (simpl; discriminate).
  assert (getLiveScores upstream w
          = (Ok v1, {| store := MemoryCache.set (clock w + elapsed r1)
                                  ("live-scores:" +:+ date) v1
                                  CACHE_TTL.LIVE_SCORES (store w);
                       clock := clock w + elapsed r1;
                       requests := requests w ++ [url] |})) as H1.
  { change (getLiveScores upstream w) with (ask upstream LiveScores w).
    rewrite ask_miss; change (key_of (clock w) LiveScores)
      with ("live-scores:" +:+ date); rewrite (get_absent _ _ _ Hlive); [|done].
    change (url_of (clock w) LiveScores) with url. fold r1. by rewrite Hf1. }
  assert (clock w1 = clock w + elapsed r1) as Hclock by (unfold w1; by rewrite H1).
  assert (cache (store w1) !! ("schedule:" +:+ date) = None) as Hsched1.
  { unfold w1. rewrite H1. simpl. by rewrite lookup_insert_ne. }
  assert (getSchedule upstream date w1
          = (Ok v2, {| store := MemoryCache.set (clock w1 + elapsed r2)
                                  ("schedule:" +:+ date) v2
                                  CACHE_TTL.SCHEDULE (store w1);
                       clock := clock w1 + elapsed r2;
                       requests := requests w1 ++ [url] |})) as H2.
  { change (getSchedule upstream date w1) with (ask upstream (Schedule date) w1).
    rewrite ask_miss; change (key_of (clock w1) (Schedule date))
      with ("schedule:" +:+ date); rewrite (get_absent _ _ _ Hsched1); [|done].
    change (url_of (clock w1) (Schedule date)) with url. fold r2. by rewrite Hf2. }
  split; [done|]. split; [done|]. split; [done|].
  unfold w2. rewrite H2. simpl. split; [|split].
  - unfold w1. rewrite H1. simpl. by rewrite <- app_assoc.
  - rewrite lookup_insert_ne by congruence. unfold w1. rewrite H1. simpl.
    by rewrite lookup_insert_eq.
  - by rewrite lookup_insert_eq.
Qed.

(** C10 (amended). When the entry of a call's key is live and holds a
    falsy value, [get] returns that value: the [null] that it returns
    for a key never set when the stored value is [null], and in every
    case a value as falsy as that [null]. The hit test of the service
    fails on it, so the call asks the upstream, once; and when the
    upstream again sends a falsy value, the entry written is again live
    and falsy, so that the next call finds the same situation. *)
Theorem falsy_entry_is_a_miss q w e :
  cache (store w) !! key_of (clock w) q = Some e →
  clock w ≤ expiresAt e →
  falsy (data e) = true →
  let key := key_of (clock w) q in
  let got := (MemoryCache.get (clock w) key (store w)).1 in
  let r := upstream (length (requests w)) (url_of (clock w) q) in
  let w1 := (ask upstream q w).2 in
  got = data e ∧ truthy got = false ∧
  (data e = VNull →
   ∀ c0, cache c0 !! key = None → got = (MemoryCache.get (clock w) key c0).1) ∧
  requests w1 = requests w ++ [url_of (clock w) q] ∧
  (∀ v', fetched r = Ok v' → falsy v' = true →
     (ask upstream q w).1 = Ok v' ∧
     ∃ e', cache (store w1) !! key = Some e' ∧ clock w1 ≤ expiresAt e'
           ∧ falsy (data e') = true).
Proof.
  intros He Hlive Hfalsy key got r w1.
  assert (MemoryCache.get (clock w) key (store w) = (data e, store w)) as Hget
    by by apply get_live.
  assert (truthy (data e) = false) as Hnt
    by (unfold falsy in Hfalsy; by destruct (truthy (data e))).
  assert (truthy (MemoryCache.get (clock w) (key_of (clock w) q) (store w)).1
          = false) as Hmiss by (fold key; by rewrite Hget).
  pose proof (ask_miss q w Hmiss) as Hask. simpl in Hask. fold key r in Hask.
  unfold got. rewrite Hget. simpl.
  split; [done|]. split; [done|]. split; [|split].
  - intros Hnull c0 Hc0. by rewrite (get_absent _ _ _ Hc0).
  - unfold w1. rewrite Hask. by destruct (fetched r).
  - intros v' Hf Hv'. unfold w1. rewrite Hask, Hf. simpl. split; [done|].
    eexists. split; [apply lookup_insert_eq|]. simpl. split; [|done].
    destruct q; simpl; lia.
Qed.

(** *** Team lookup *)

(** The callback reads its argument only through [toLowerCase]. *)
Lemma abbrev_matches_lower a a' t :
  toLowerCase a = toLowerCase a' → abbrev_matches a t = abbrev_matches a' t.
Proof. intros H. unfold abbrev_matches. by rewrite H. Qed.

Lemma find_ext (p p' : value → result bool) items :
  (∀ t, p t = p' t) → find p items = find p' items.
Proof.
  intros H. induction items as [|t items IH]; [done|].
  simpl. by rewrite H, IH.
Qed.

Lemma getTeamStats_lower a a' w :
  toLowerCase a = toLowerCase a' →
  getTeamStats upstream a w = getTeamStats upstream a' w.
Proof.
  intros H. unfold getTeamStats, lift, mbind, M_bind, mret, M_ret.
  destruct (getStandings upstream w) as [[doc|e] w']; [|done].
  destruct (get_prop doc "standings") as [l|e]; [|done].
  destruct l; try done.
  by rewrite (find_ext _ (abbrev_matches a')) by (intros; by apply abbrev_matches_lower).
Qed.

(** On an entry of the shape of [NHLTeamStanding] the callback does not
    throw, and compares the two abbreviations in lower case. *)
Lemma abbrev_matches_team abbrev t a :
  abbrev_of t = Some a →
  abbrev_matches abbrev t
  = Ok (String.eqb (toLowerCase a) (toLowerCase abbrev)) ∧ truthy t = true.
Proof.
  unfold abbrev_of, abbrev_matches.
  destruct t as [| | | | | |fields]; simpl; try done.
  destruct (assoc "teamAbbrev" fields) as [ta|]; simpl; [|done].
  destruct ta as [| | | | | |g]; simpl; try done.
  destruct (assoc "default" g) as [d|]; simpl; [|done].
  destruct d; try done. by intros [= ->].
Qed.

Lemma find_no_match abbrev items :
  Forall (λ t, is_Some (abbrev_of t)) items →
  (∀ t, t ∈ items → ¬ team_matches abbrev t) →
  find (abbrev_matches abbrev) items = Ok VUndefined.
Proof.
  intros Hwf. induction Hwf as [|t items [a Ha] Hwf IH]; [done|].
  intros Hno. simpl.
  destruct (abbrev_matches_team abbrev t a Ha) as [-> _].
  destruct (String.eqb_spec (toLowerCase a) (toLowerCase abbrev)) as [Heq|_].
  - exfalso. apply (Hno t); [left | by exists a].
  - apply IH. intros t' Ht'. apply Hno. by right.
Qed.

Lemma find_first_match abbrev items i t :
  Forall (λ t, is_Some (abbrev_of t)) items →
  items !! i = Some t → team_matches abbrev t →
  (∀ j t', (j < i)%nat → items !! j = Some t' → ¬ team_matches abbrev t') →
  find (abbrev_matches abbrev) items = Ok t.
Proof.
  intros Hwf. revert i.
  induction Hwf as [|t0 items [a0 Ha0] Hwf IH]; intros i Hi Hm Hfirst; [done|].
  simpl. destruct (abbrev_matches_team abbrev t0 a0 Ha0) as [-> _].
  destruct i as [|i]; simpl in Hi.
  - injection Hi as ->. destruct Hm as (a & Ha & Heq).
    assert (a0 = a) as -> by congruence.
    by rewrite Heq, String.eqb_refl.
  - destruct (String.eqb_spec (toLowerCase a0) (toLowerCase abbrev)) as [Heq|_].
    + exfalso. apply (Hfirst 0%nat t0); [lia | done | by exists a0].
    + apply (IH i); [done | done |].
      intros j t' Hj Ht'. apply (Hfirst (S j) t'); [lia | done].
Qed.

Lemma find_some_match abbrev items :
  Forall (λ t, is_Some (abbrev_of t)) items →
  (∃ t, t ∈ items ∧ team_matches abbrev t) →
  ∃ t, t ∈ items ∧ team_matches abbrev t
       ∧ find (abbrev_matches abbrev) items = Ok t.
Proof.
  intros Hwf. induction Hwf as [|t0 items [a0 Ha0] Hwf IH]; intros (t & Hin & Hm).
  - by apply elem_of_nil in Hin.
  - simpl. destruct (abbrev_matches_team abbrev t0 a0 Ha0) as [-> _].
    destruct (String.eqb_spec (toLowerCase a0) (toLowerCase abbrev)) as [Heq|Hne].
    + exists t0. split; [left|]. split; [by exists a0 | done].
    + apply elem_of_cons in Hin as [->|Hin].
      * destruct Hm as (a & Ha & Heq). congruence.
      * destruct IH as (t' & Hin' & Hm' & Hfind); [by exists t|].
        exists t'. split; [by right | done].
Qed.

(** [getTeamStats] once the standings are there and are a list. *)
Lemma getTeamStats_standings abbrev w doc items :
  (getStandings upstream w).1 = Ok doc →
  get_prop doc "standings" = Ok (VArr items) →
  (getTeamStats upstream abbrev w).1
  = match find (abbrev_matches abbrev) items with
    | Ok team => Ok (if truthy team then team else VNull)
    | Throw e => Throw e
    end.
Proof.
  intros Hs Hl. unfold getTeamStats, lift, mbind, M_bind, mret, M_ret.
  destruct (getStandings upstream w) as [r w']. simpl in Hs. subst r.
  rewrite Hl. by destruct (find _ items).
Qed.

(** C6. Over standings whose entries all carry an abbreviation, for
    abbreviations and requests of 7-bit characters (BOS, bos, xyz): two
    requests that differ only in letter case get the same answer (and
    leave the same state); when some entry has the requested
    abbreviation up to letter case, both get an entry of the list that
    has it, namely the first such entry, which is the entry itself when
    no earlier entry matches; when no entry matches, the answer is
    [null], not an exception. *)
Theorem team_lookup_case_insensitive w doc items (x y A : string) :
  (getStandings upstream w).1 = Ok doc →
  get_prop doc "standings" = Ok (VArr items) →
  Forall ascii_team items →
  seven_bit x = true →
  seven_bit y = true →
  toLowerCase x = toLowerCase A →
  toLowerCase y = toLowerCase A →
  getTeamStats upstream x w = getTeamStats upstream y w ∧
  ((∃ t, t ∈ items ∧ abbrev_of t = Some A) →
   ∃ t, t ∈ items ∧ team_matches A t ∧
        (getTeamStats upstream x w).1 = Ok t ∧
        (getTeamStats upstream y w).1 = Ok t) ∧
  (∀ i t, items !! i = Some t → abbrev_of t = Some A →
     (∀ j t', (j < i)%nat → items !! j = Some t' → ¬ team_matches A t') →
     (getTeamStats upstream x w).1 = Ok t ∧
     (getTeamStats upstream y w).1 = Ok t) ∧
  (∀ z, seven_bit z = true → (∀ t, t ∈ items → ¬ team_matches z t) →
     (getTeamStats upstream z w).1 = Ok VNull).
Proof.
  intros Hs Hl Hascii _ _ Hx Hy.
  assert (Forall (λ t, is_Some (abbrev_of t)) items) as Hwf.
  { eapply Forall_impl; [exact Hascii|]. intros t (a & Ha & _). by exists a. }
  assert (getTeamStats upstream x w = getTeamStats upstream A w) as HxA
    by by apply getTeamStats_lower.
  assert (getTeamStats upstream y w = getTeamStats upstream A w) as HyA
    by by apply getTeamStats_lower.
  rewrite HxA, HyA. split; [done|].
  rewrite (getTeamStats_standings A w doc items Hs Hl). split; [|split].
  - intros (t & Hin & Ht).
    destruct (find_some_match A items Hwf) as (t' & Hin' & Hm' & Hfind).
    { exists t. split; [done|]. by exists A. }
    exists t'. rewrite Hfind. destruct Hm' as (a & Ha & Heq).
    destruct (abbrev_matches_team A t' a Ha) as [_ ->].
    split; [done|]. split; [by exists a | done].
  - intros i t Hi Ht Hfirst.
    rewrite (find_first_match A items i t Hwf Hi); [|by exists A|done].
    destruct (abbrev_matches_team A t A Ht) as [_ ->]. done.
  - intros z _ Hno. rewrite (getTeamStats_standings z w doc items Hs Hl).
    by rewrite (find_no_match z items Hwf Hno).
Qed.

End ServiceProperties.

(** ** The properties at the fixtures *)

Section Instances.

Import Sample.

(** Until [destroy()] the host does run the sweep of a new cache. *)
Lemma new_registers_sweep h now c' :
  let t := next_handle h in
  cleanupInterval (MemoryCache.new h).1 = Some t ∧
  t ∈ running (MemoryCache.new h).2 ∧
  MemoryCache.on_interval t now c' (MemoryCache.new h).2
  = MemoryCache.cleanup now c'.
Proof.
  simpl. split; [done|]. split; [set_solver|].
  unfold MemoryCache.on_interval. simpl.
  rewrite bool_decide_eq_true_2; [done | set_solver].
Qed.

(** Scenario A of the specification, one millisecond apart from the
    boundary on both sides and on it. *)
Lemma expiry_window_witness :
  let k := "standings:2024-01-15" in
  let v := VObj [("wins", VNum 30)] in
  let c1 := MemoryCache.set 1705276800000 k v 300000 cache0 in
  MemoryCache.get (1705276800000 + 0) k c1 = (v, c1) ∧
  MemoryCache.get (1705276800000 + 300000) k c1 = (v, c1) ∧
  MemoryCache.get (1705276800000 + 300001) k c1
  = (VNull, MemoryCache.delete k c1).
Proof.
  intros k v c1.
  destruct (expiry_window k v 300000 1705276800000 cache0) as (Hin & Hout & _);
    [lia|].
  split; [apply Hin; lia|]. split; [apply Hin; lia | apply Hout; lia].
Defined.

(** P1 as written fails on the boundary: with a TTL of 0 the value
    is read back while the clock has not moved. *)
Lemma expiry_counterexample :
  (MemoryCache.get (1000 + 0) "k" (MemoryCache.set 1000 "k" (VNum 7) 0 cache0)).1
  = VNum 7
  ∧ ¬ expiry_as_stated.
Proof.
  assert ((MemoryCache.get (1000 + 0) "k"
             (MemoryCache.set 1000 "k" (VNum 7) 0 cache0)).1 = VNum 7) as H.
  { rewrite (get_live _ _ _ _ (lookup_set _ _ _ _ _)); [done | simpl; lia]. }
  split; [exact H|]. intros Hstated.
  destruct (Hstated "k" (VNum 7) 0 1000 0 cache0) as [_ Habsent]; [lia | lia |].
  rewrite H in Habsent. specialize (Habsent ltac:(lia)). discriminate.
Qed.

Lemma visible_iff_not_expired_witness :
  let k := "standings:2024-01-15" in
  let c1 := MemoryCache.set 1000 k mockStandings 300000 cache0 in
  visible 300999 k c1 ∧ visible 301000 k c1 ∧ ¬ visible 301001 k c1 ∧
  (MemoryCache.get 301001 k c1).1 = VNull.
Proof.
  intros k c1.
  assert (cache c1 !! k = Some {| data := mockStandings; expiresAt := 1000 + 300000 |})
    as H by apply lookup_set.
  split; [|split; [|split]].
  - apply (visible_iff_not_expired 300999 k c1). eexists. split; [exact H|]. simpl. lia.
  - apply (visible_iff_not_expired 301000 k c1). eexists. split; [exact H|]. simpl. lia.
  - intros Hv. apply (visible_iff_not_expired 301001 k c1) in Hv as (e & He & Hle).
    rewrite H in He. injection He as <-. simpl in Hle. lia.
  - apply (proj2 (visible_iff_not_expired 301001 k c1) _ H). simpl. lia.
Defined.

Lemma overwrite_last_write_wins_witness :
  let c2 := MemoryCache.set 2000 "k" (VNum 2) 500
              (MemoryCache.set 1000 "k" (VNum 1) 900000 cache0) in
  c2 = MemoryCache.set 2000 "k" (VNum 2) 500 cache0 ∧
  MemoryCache.get 2500 "k" c2 = (VNum 2, c2) ∧
  MemoryCache.gets "k" [2000; 2100; 2500] c2 = ([VNum 2; VNum 2; VNum 2], c2).
Proof.
  intros c2.
  destruct (overwrite_last_write_wins "k" (VNum 1) (VNum 2) 900000 500 1000 2000 cache0)
    as (Hsame & Hget & Hgets).
  split; [exact Hsame|]. split; [apply Hget; lia|].
  apply (Hgets [2000; 2100; 2500]). repeat constructor; lia.
Defined.

Lemma delete_and_clear_witness :
  let c1 := MemoryCache.set 1000 "k" (VNum 1) 900000 cache0 in
  (MemoryCache.get 1000 "k" (MemoryCache.delete "k" c1)).1 = VNull ∧
  MemoryCache.delete "absent" cache0 = cache0 ∧
  (MemoryCache.get 1000 "k" (MemoryCache.clear c1)).1 = VNull.
Proof.
  intros c1. split; [|split].
  - apply (delete_and_clear "k" c1 1000).
  - apply (delete_and_clear "absent" cache0 1000). reflexivity.
  - apply (delete_and_clear "k" c1 1000).
Defined.

Lemma destroy_idempotent_witness :
  let c1 := MemoryCache.set 1000 "k" (VNum 1) 900000 cache0 in
  let c2 := (MemoryCache.destroy c1 host1).1 in
  let h2 := (MemoryCache.destroy c1 host1).2 in
  cache c2 = ∅ ∧ cleanupInterval c2 = None ∧ (1%nat ∉ running h2) ∧
  MemoryCache.on_interval 1%nat 901001 (MemoryCache.set 1000 "k" (VNum 1) 1 c2) h2
  = MemoryCache.set 1000 "k" (VNum 1) 1 c2 ∧
  MemoryCache.destroy c2 h2 = (c2, h2) ∧
  MemoryCache.destroy (MemoryCache.set 1000 "k" (VNum 1) 1 c2) h2 = (c2, h2).
Proof.
  intros c1 c2 h2.
  destruct (destroy_idempotent c1 host1) as (Hempty & Hnone & Hstop & Htwice & Hlater).
  destruct (Hstop 1%nat) as [Hnot Hidle]; [reflexivity|].
  split; [exact Hempty|]. split; [exact Hnone|]. split; [exact Hnot|].
  split; [apply Hidle|]. split; [exact Htwice|].
  apply Hlater. reflexivity.
Defined.

(** The first test of [getSchedule], followed by a second call 300 000 ms
    after the write. *)
Lemma read_through_on_miss_witness :
  let up := responds mockSchedule in
  let q := Schedule "2024-01-15" in
  let w1 := (ask up q world0).2 in
  (ask up q world0).1 = Ok mockSchedule ∧
  requests w1 = ["https://api-web.nhle.com/v1/schedule/2024-01-15"] ∧
  cache (store w1)
  = {[ "schedule:2024-01-15" :=
         {| data := mockSchedule; expiresAt := 1705276800000 + 120 + 300000 |} ]} ∧
  ask up q (later 300000 w1) = (Ok mockSchedule, later 300000 w1).
Proof.
  intros up q w1.
  destruct (read_through_on_miss up q world0 mockSchedule)
    as (Hres & Hreq & Hcache & Hagain); [reflexivity | reflexivity |].
  split; [exact Hres|]. split; [exact Hreq|]. split; [exact Hcache|].
  apply Hagain; [reflexivity | simpl; lia | reflexivity].
Defined.

(** P4 as written fails when the upstream sends a falsy body: the
    JSON [null] is written under the key, and the second call, made at
    once, asks the upstream again. *)
Lemma read_through_counterexample :
  (let up := responds VNull in
   let q := Schedule "2024-01-15" in
   let w1 := (ask up q world0).2 in
   requests w1 = ["https://api-web.nhle.com/v1/schedule/2024-01-15"] ∧
   requests (ask up q w1).2
   = ["https://api-web.nhle.com/v1/schedule/2024-01-15";
      "https://api-web.nhle.com/v1/schedule/2024-01-15"])
  ∧ ¬ read_through_as_stated.
Proof.
  split; [by vm_compute|]. intros Hstated.
  destruct (Hstated (responds VNull) (Schedule "2024-01-15") world0 VNull)
    as (_ & _ & Hsecond); [reflexivity | reflexivity |].
  destruct Hsecond as [_ Hreq]; [reflexivity|].
  vm_compute in Hreq. discriminate.
Qed.

(** Scenario B of the specification: a 404 for game 2023020789. *)
Lemma failures_not_cached_witness :
  let q := Game "2023020789" in
  let w1 := (ask not_found q world0).2 in
  (ask not_found q world0).1 = Throw (Error "NHL API error: 404 Not Found") ∧
  cache (store w1) !! "game:2023020789" = None ∧
  store w1 = store world0 ∧
  requests (ask not_found q (later 0 w1)).2
  = ["https://api-web.nhle.com/v1/gamecenter/2023020789/landing";
     "https://api-web.nhle.com/v1/gamecenter/2023020789/landing"].
Proof.
  intros q w1.
  destruct (failures_not_cached not_found q world0
              (Error "NHL API error: 404 Not Found"))
    as (Hres & Hreq & _ & _ & Hsame & _ & Hretry); [reflexivity | reflexivity |].
  assert (store w1 = store world0) as Hstore by (apply Hsame; reflexivity).
  split; [exact Hres|]. split; [by rewrite Hstore|]. split; [exact Hstore|].
  etrans; [apply (Hretry 0); reflexivity|]. by rewrite Hreq.
Defined.

Lemma ttl_differentiation_witness :
  let up := responds mockSchedule in
  let w2 := (getSchedule up "2024-01-15" (getLiveScores up world0).2).2 in
  requests w2 = ["https://api-web.nhle.com/v1/schedule/2024-01-15";
                 "https://api-web.nhle.com/v1/schedule/2024-01-15"] ∧
  cache (store w2) !! "live-scores:2024-01-15"
  = Some {| data := mockSchedule; expiresAt := 1705276800000 + 120 + 30000 |} ∧
  cache (store w2) !! "schedule:2024-01-15"
  = Some {| data := mockSchedule;
            expiresAt := 1705276800000 + 120 + 120 + 300000 |}.
Proof.
  intros up w2.
  destruct (ttl_differentiation up world0 mockSchedule mockSchedule)
    as (_ & _ & _ & Hreq & Hlive & Hsched);
    [reflexivity | reflexivity | reflexivity | reflexivity |].
  split; [exact Hreq|]. split; [exact Hlive | exact Hsched].
Defined.

(** The three tests of [getTeamStats]. *)
Lemma team_lookup_case_insensitive_witness :
  let up := responds mockStandings in
  getTeamStats up "bos" world0 = getTeamStats up "BOS" world0 ∧
  (getTeamStats up "bos" world0).1 = Ok bruins ∧
  (getTeamStats up "BOS" world0).1 = Ok bruins ∧
  (getTeamStats up "XYZ" world0).1 = Ok VNull.
Proof.
  intros up.
  destruct (team_lookup_case_insensitive up world0 mockStandings [bruins; leafs]
              "bos" "BOS" "BOS")
    as (Hsame & _ & Hfirst & Hnone).
  - reflexivity.
  - reflexivity.
  - repeat constructor; eexists; (split; reflexivity).
  - reflexivity.
  - reflexivity.
  - reflexivity.
  - reflexivity.
  - destruct (Hfirst 0%nat bruins) as [Hx Hy];
      [reflexivity | reflexivity | intros j t' Hj; exfalso; lia |].
    split; [exact Hsame|]. split; [exact Hx|]. split; [exact Hy|].
    apply Hnone; [reflexivity|]. intros t Hin (a & Ha & Heq).
    apply elem_of_cons in Hin as [->|Hin];
      [|apply elem_of_cons in Hin as [->|Hin]; [|by apply elem_of_nil in Hin]];
      injection Ha as <-; discriminate Heq.
Defined.

(** The JSON [null] stored under a schedule key, read within its TTL. *)
Lemma falsy_entry_is_a_miss_witness :
  let up := responds VNull in
  let q := Schedule "2024-01-15" in
  let w := (ask up q world0).2 in
  (MemoryCache.get (clock w) "schedule:2024-01-15" (store w)).1 = VNull ∧
  (MemoryCache.get (clock w) "schedule:2024-01-15" (store w)).1
  = (MemoryCache.get (clock w) "schedule:2024-01-15" cache0).1 ∧
  requests (ask up q w).2
  = requests w ++ ["https://api-web.nhle.com/v1/schedule/2024-01-15"].
Proof.
  intros up q w.
  destruct (falsy_entry_is_a_miss up q w
              {| data := VNull; expiresAt := 1705276800000 + 120 + 300000 |})
    as (Hgot & _ & Hnull & Hreq & _);
    [reflexivity | by vm_compute | reflexivity |].
  split; [exact Hgot|]. split; [apply Hnull; reflexivity | exact Hreq].
Defined.

(** Reading back as absent fails for the falsy values other than [null]:
    a stored 0 is read back as 0, which is not the [null] of a key never
    set. *)
Lemma falsy_counterexample :
  (MemoryCache.get 1000 "k" (MemoryCache.set 1000 "k" (VNum 0) 60000 cache0)).1
  = VNum 0
  ∧ (MemoryCache.get 1000 "k" cache0).1 = VNull
  ∧ ¬ falsy_reads_as_absent.
Proof.
  assert ((MemoryCache.get 1000 "k"
             (MemoryCache.set 1000 "k" (VNum 0) 60000 cache0)).1 = VNum 0) as H.
  { rewrite (get_live _ _ _ _ (lookup_set _ _ _ _ _)); [done | simpl; lia]. }
  split; [exact H|]. split; [reflexivity|]. intros Hstated.
  specialize (Hstated "k" (VNum 0) 1000
                (MemoryCache.set 1000 "k" (VNum 0) 60000 cache0) cache0
                {| data := VNum 0; expiresAt := 1000 + 60000 |}).
  rewrite H in Hstated.
  discriminate Hstated;
    [apply lookup_set | reflexivity | reflexivity | simpl; lia | reflexivity].
Qed.

End Instances.

(** ** Further properties of the cache store *)

Section StoreExtras.

Implicit Types (c : MemoryCache) (k key : string) (v : value) (e : CacheEntry).

Lemma MemoryCache_eq c1 c2 :
  cache c1 = cache c2 → cleanupInterval c1 = cleanupInterval c2 → c1 = c2.
Proof. destruct c1, c2. simpl. by intros -> ->. Qed.

Lemma cleanup_delete swept k c :
  MemoryCache.cleanup swept (MemoryCache.delete k c)
  = MemoryCache.delete k (MemoryCache.cleanup swept c).
Proof.
  apply MemoryCache_eq; [|done]. simpl. apply map_filter_delete.
Qed.

(** X1. The sweep is invisible to readers: a [get] made at or after the
    time of a sweep returns what it would have returned without the sweep,
    and sweep and read can be exchanged. *)
Theorem sweep_invisible_to_reads now swept k c :
  swept ≤ now →
  MemoryCache.get now k (MemoryCache.cleanup swept c)
  = ((MemoryCache.get now k c).1,
     MemoryCache.cleanup swept (MemoryCache.get now k c).2).
Proof.
  intros Hle. destruct (cache c !! k) as [e|] eqn:E.
  - destruct (Z.le_gt_cases swept (expiresAt e)) as [Hkeep|Hdrop].
    + assert (cache (MemoryCache.cleanup swept c) !! k = Some e) as E'
        by (apply lookup_cleanup; done).
      destruct (Z.le_gt_cases now (expiresAt e)) as [Hlive|Hdead].
      * by rewrite (get_live _ _ _ _ E' Hlive), (get_live _ _ _ _ E Hlive).
      * rewrite (get_expired _ _ _ _ E' Hdead), (get_expired _ _ _ _ E Hdead).
        simpl. by rewrite cleanup_delete.
    + assert (cache (MemoryCache.cleanup swept c) !! k = None) as E'.
      { destruct (cache (MemoryCache.cleanup swept c) !! k) as [e'|] eqn:E'; [|done].
        apply lookup_cleanup in E' as [E' Hle']. rewrite E in E'.
        injection E' as <-. lia. }
      rewrite (get_absent _ _ _ E'), (get_expired _ _ _ _ E) by lia. simpl.
      rewrite cleanup_delete. f_equal. apply MemoryCache_eq; [|done].
      simpl. symmetry. by apply delete_id.
  - assert (cache (MemoryCache.cleanup swept c) !! k = None) as E'.
    { destruct (cache (MemoryCache.cleanup swept c) !! k) as [e'|] eqn:E'; [|done].
      apply lookup_cleanup in E' as [E' _]. by rewrite E in E'. }
    by rewrite (get_absent _ _ _ E'), (get_absent _ _ _ E).
Qed.

(** X2. Two sweeps amount to one sweep at the later of their times; in
    particular a sweep repeated at the same time changes nothing more. *)
Theorem sweep_composes n1 n2 c :
  MemoryCache.cleanup n2 (MemoryCache.cleanup n1 c)
  = MemoryCache.cleanup (Z.max n1 n2) c.
Proof.
  apply MemoryCache_eq; [|done]. apply map_eq. intros k. apply option_eq. intros e.
  rewrite !lookup_cleanup. intuition lia.
Qed.

(** X3. The sweep keeps exactly the entries that a [get] at the time of
    the sweep would return, and keeps them as they are. *)
Theorem sweep_keeps_visible now k c e :
  cache (MemoryCache.cleanup now c) !! k = Some e
  ↔ cache c !! k = Some e ∧ visible now k c.
Proof.
  rewrite lookup_cleanup. split.
  - intros [H Hle]. split; [done|]. exists e. split; [done|]. by apply get_live.
  - intros [H (e' & H' & Hget)]. split; [done|].
    rewrite H in H'. injection H' as <-.
    destruct (Z.le_gt_cases now (expiresAt e)) as [|Hgt]; [done|].
    rewrite (get_expired _ _ _ _ H Hgt) in Hget. injection Hget as _ Hc.
    rewrite <- Hc in H. by rewrite lookup_deleted in H.
Qed.

(** X4. Keys do not interfere: a [set] or a [delete] of one key changes
    neither the result nor the effect of a [get] of another key, and a
    [get] of one key changes no read of another, at any time. *)
Theorem keys_independent k k' now c :
  k ≠ k' →
  (∀ s v t, MemoryCache.get now k' (MemoryCache.set s k v t c)
            = ((MemoryCache.get now k' c).1,
               MemoryCache.set s k v t (MemoryCache.get now k' c).2)) ∧
  MemoryCache.get now k' (MemoryCache.delete k c)
  = ((MemoryCache.get now k' c).1,
     MemoryCache.delete k (MemoryCache.get now k' c).2) ∧
  (∀ n, (MemoryCache.get now k' (MemoryCache.get n k c).2).1
        = (MemoryCache.get now k' c).1).
Proof.
  intros Hne. split; [|split].
  - intros s v t. unfold MemoryCache.get, MemoryCache.set. simpl.
    rewrite lookup_insert_ne by done.
    destruct (cache c !! k') as [e|]; [|done].
    destruct (Z.gtb now (expiresAt e)); [|done]. simpl. f_equal.
    apply MemoryCache_eq; [|done]. simpl. by apply delete_insert_ne.
  - unfold MemoryCache.get, MemoryCache.delete. simpl.
    rewrite lookup_delete_ne by done.
    destruct (cache c !! k') as [e|]; [|done].
    destruct (Z.gtb now (expiresAt e)); [|done]. simpl. f_equal.
    apply MemoryCache_eq; [|done]. simpl. apply delete_delete.
  - intros n. unfold MemoryCache.get at 2.
    destruct (cache c !! k) as [e|]; [|done].
    destruct (Z.gtb n (expiresAt e)); [|done]. simpl.
    unfold MemoryCache.get. simpl. rewrite lookup_delete_ne by done.
    destruct (cache c !! k') as [e'|]; [|done].
    by destruct (Z.gtb now (expiresAt e')).
Qed.

(** X5. A read repeated while the clock has not moved returns the same
    value and has no further effect. *)
Theorem get_twice now k c :
  MemoryCache.get now k (MemoryCache.get now k c).2 = MemoryCache.get now k c.
Proof.
  destruct (cache c !! k) as [e|] eqn:E.
  - destruct (Z.le_gt_cases now (expiresAt e)) as [Hlive|Hdead].
    + rewrite (get_live _ _ _ _ E Hlive). simpl. by apply get_live.
    + rewrite (get_expired _ _ _ _ E Hdead). simpl.
      by rewrite (get_absent _ _ _ (lookup_deleted k c)).
  - rewrite (get_absent _ _ _ E). simpl. by apply get_absent.
Qed.

(** X6. Only [set] adds a key, and it adds its own key and no other: the
    keys after a [get], a sweep or a [delete] are among the keys before. *)
Theorem only_set_adds_keys now k c :
  dom (cache (MemoryCache.get now k c).2) ⊆ dom (cache c) ∧
  dom (cache (MemoryCache.cleanup now c)) ⊆ dom (cache c) ∧
  dom (cache (MemoryCache.delete k c)) ⊆ dom (cache c) ∧
  (∀ s v t, dom (cache (MemoryCache.set s k v t c)) = {[ k ]} ∪ dom (cache c)).
Proof.
  split; [|split; [|split]].
  - unfold MemoryCache.get. destruct (cache c !! k) as [e|]; [|done].
    destruct (Z.gtb now (expiresAt e)); [|done]. simpl.
    rewrite dom_delete_L. by apply subseteq_difference_l.
  - simpl. apply dom_filter_subseteq.
  - simpl. rewrite dom_delete_L. by apply subseteq_difference_l.
  - intros s v t. simpl. apply dom_insert_L.
Qed.

(** X7. [delete] undoes [set]: on a key that had no entry, [set] followed
    by [delete] gives back the cache as it was; in general it gives the
    cache with that key deleted. *)
Theorem delete_undoes_set s k v t c :
  MemoryCache.delete k (MemoryCache.set s k v t c) = MemoryCache.delete k c ∧
  (cache c !! k = None → MemoryCache.delete k (MemoryCache.set s k v t c) = c).
Proof.
  assert (MemoryCache.delete k (MemoryCache.set s k v t c) = MemoryCache.delete k c) as H.
  { apply MemoryCache_eq; [|done]. simpl. apply delete_insert_eq. }
  split; [done|]. intros Hnone. rewrite H.
  apply MemoryCache_eq; [|done]. simpl. by apply delete_id.
Qed.

(** X8. [destroy()] clears the interval of its own cache and no other:
    every other interval of the host is running afterwards exactly when
    it was running before. *)
Theorem destroy_clears_only_own_timer c h t' :
  cleanupInterval c ≠ Some t' →
  t' ∈ running (MemoryCache.destroy c h).2 ↔ t' ∈ running h.
Proof.
  intros Hne. unfold MemoryCache.destroy.
  destruct (cleanupInterval c) as [t|]; simpl; [|done].
  rewrite elem_of_difference, elem_of_singleton. split; [by intros [? _]|].
  intros Hin. split; [done|]. congruence.
Qed.

(** X9. With a negative TTL the value is never read back: every [get] at
    or after the time of the [set] returns [null]. *)
Theorem negative_ttl_never_read s k v t now c :
  t < 0 → s ≤ now →
  (MemoryCache.get now k (MemoryCache.set s k v t c)).1 = VNull.
Proof.
  intros Ht Hnow.
  rewrite (get_expired _ _ _ _ (lookup_set s k v t c)); [done | simpl; lia].
Qed.

End StoreExtras.

(** ** Further properties of the read-through service *)

Section ServiceExtras.

Variable upstream : nat → string → reply.

Implicit Types (q : query) (w : world) (v : value).

(** X10. An expired entry is never served: a call that finds one asks
    the upstream, and when the fetch succeeds returns the new body and
    replaces the entry, which then expires one TTL after the write. *)
Theorem refetch_after_ttl q w e v' :
  cache (store w) !! key_of (clock w) q = Some e →
  expiresAt e < clock w →
  fetched (upstream (length (requests w)) (url_of (clock w) q)) = Ok v' →
  let key := key_of (clock w) q in
  let r := upstream (length (requests w)) (url_of (clock w) q) in
  let w1 := (ask upstream q w).2 in
  (ask upstream q w).1 = Ok v' ∧
  requests w1 = requests w ++ [url_of (clock w) q] ∧
  cache (store w1)
  = <[ key := {| data := v'; expiresAt := clock w + elapsed r + ttl_of q |} ]>
      (cache (store w)).
Proof.
  intros He Hdead Hf key r w1.
  pose proof (get_expired _ _ _ _ He Hdead) as Hget.
  assert (truthy (MemoryCache.get (clock w) (key_of (clock w) q) (store w)).1
          = false) as Hmiss by by rewrite Hget.
  pose proof (ask_miss upstream q w Hmiss) as Hask. simpl in Hask.
  rewrite Hf, Hget in Hask. unfold w1. rewrite Hask. simpl.
  split; [done|]. split; [done|]. apply insert_delete_eq.
Qed.

(** A call sends no request, or one request for its own URL. *)
Lemma ask_requests q w :
  requests (ask upstream q w).2 = requests w
  ∨ requests (ask upstream q w).2 = requests w ++ [url_of (clock w) q].
Proof.
  destruct (truthy (MemoryCache.get (clock w) (key_of (clock w) q) (store w)).1)
    eqn:Hhit.
  - rewrite (ask_hit upstream q w Hhit). by left.
  - pose proof (ask_miss upstream q w Hhit) as Hask. simpl in Hask.
    rewrite Hask. right. by destruct (fetched _).
Qed.

(** X11. A call touches the cache at its own key only, never the
    interval handle, and sends at most one request, for its own URL; when
    it sends none, no time passes. *)
Theorem call_touches_only_its_key q w :
  let w1 := (ask upstream q w).2 in
  (∀ k', k' ≠ key_of (clock w) q →
     cache (store w1) !! k' = cache (store w) !! k') ∧
  cleanupInterval (store w1) = cleanupInterval (store w) ∧
  ((requests w1 = requests w ∧ clock w1 = clock w)
   ∨ requests w1 = requests w ++ [url_of (clock w) q]).
Proof.
  intros w1.
  assert (∀ k', k' ≠ key_of (clock w) q →
            cache (MemoryCache.get (clock w) (key_of (clock w) q) (store w)).2 !! k'
            = cache (store w) !! k') as Hframe.
  { intros k' Hne.
    destruct (get_lookup (clock w) (key_of (clock w) q) k' (store w))
      as [H|[H _]]; done. }
  pose proof (get_cleanupInterval (clock w) (key_of (clock w) q) (store w)) as Hci.
  destruct (truthy (MemoryCache.get (clock w) (key_of (clock w) q) (store w)).1)
    eqn:Hhit.
  - unfold w1. rewrite (ask_hit upstream q w Hhit). simpl.
    split; [done|]. split; [done|]. by left.
  - pose proof (ask_miss upstream q w Hhit) as Hask. simpl in Hask.
    unfold w1. rewrite Hask.
    destruct (fetched _) as [v|e]; simpl.
    + split; [|split; [done | by right]].
      intros k' Hne. rewrite lookup_insert_ne by congruence. by apply Hframe.
    + split; [done|]. split; [done | by right].
Qed.

(** X12. Two queries share a cache key only when they are the same kind
    of query for the same upstream URL (and so with the same TTL): live
    scores and the schedule of the same day, which share a URL, do not
    share a key. *)
Theorem keys_separate_queries now now' q q' :
  key_of now q = key_of now' q' →
  url_of now q = url_of now' q' ∧ ttl_of q = ttl_of q' ∧
  match q, q' with
  | LiveScores, LiveScores | Standings, Standings => isoDate now = isoDate now'
  | Schedule d, Schedule d' => d = d'
  | Game g, Game g' => g = g'
  | Player p, Player p' => p = p'
  | _, _ => False
  end.
Proof.
  destruct q, q'; unfold key_of, url_of, ttl_of;
    generalize (isoDate now), (isoDate now'); intros d1 d2; simpl;
    intros H; try discriminate H; injection H as H;
    match type of H with "" +:+ ?a = "" +:+ ?b => change (a = b) in H end;
    by subst.
Qed.

(** X13. [getTeamStats] is not cached on its own: it leaves the cache,
    the clock and the request log exactly as [getStandings] does,
    whatever it returns, and a failure of [getStandings] is its failure. *)
Theorem getTeamStats_follows_getStandings abbrev w :
  (getTeamStats upstream abbrev w).2 = (getStandings upstream w).2 ∧
  (∀ e, (getStandings upstream w).1 = Throw e →
        (getTeamStats upstream abbrev w).1 = Throw e).
Proof.
  unfold getTeamStats, lift, mbind, M_bind, mret, M_ret.
  destruct (getStandings upstream w) as [[doc|e0] w']; simpl.
  - split; [|done].
    destruct (get_prop doc "standings") as [l|e]; [|done].
    destruct l as [| | | | |items|]; try done.
    by destruct (find _ items).
  - split; [done|]. by intros e [= ->].
Qed.

(** X14. A standings document that is truthy but carries no list of
    standings is cached like any other: [getTeamStats] throws a TypeError
    on it, and until the entry expires every further [getTeamStats] of
    that day throws again without asking the upstream. *)
Theorem malformed_standings_are_cached abbrev w doc :
  cache (store w) !! key_of (clock w) Standings = None →
  fetched (upstream (length (requests w)) (url_of (clock w) Standings)) = Ok doc →
  truthy doc = true →
  (∀ items, get_prop doc "standings" ≠ Ok (VArr items)) →
  let w1 := (getTeamStats upstream abbrev w).2 in
  (getTeamStats upstream abbrev w).1 = Throw TypeError ∧
  requests w1 = requests w ++ [url_of (clock w) Standings] ∧
  data <$> cache (store w1) !! key_of (clock w) Standings = Some doc ∧
  (∀ d abbrev', d ≤ ttl_of Standings →
     isoDate (clock w1 + d) = isoDate (clock w) →
     (getTeamStats upstream abbrev' (later d w1)).1 = Throw TypeError ∧
     requests (getTeamStats upstream abbrev' (later d w1)).2 = requests w1).
Proof.
  intros Hnone Hf Htruthy Hshape w1.
  assert (∀ a w' w'', getStandings upstream w' = (Ok doc, w'') →
            getTeamStats upstream a w' = (Throw TypeError, w'')) as Hteam.
  { intros a w' w'' Hs. unfold getTeamStats, lift, mbind, M_bind, mret, M_ret.
    rewrite Hs. destruct (get_prop doc "standings") as [l|e] eqn:Hl.
    - destruct l; try done. by destruct (Hshape items).
    - destruct doc; try done. }
  set (r := upstream (length (requests w)) (url_of (clock w) Standings)) in *.
  set (key := key_of (clock w) Standings) in *.
  assert (getStandings upstream w
          = (Ok doc, {| store := MemoryCache.set (clock w + elapsed r) key doc
                                   (ttl_of Standings) (store w);
                        clock := clock w + elapsed r;
                        requests := requests w ++ [url_of (clock w) Standings] |}))
    as Hfirst.
  { change (getStandings upstream w) with (ask upstream Standings w).
    rewrite ask_miss; fold key; rewrite (get_absent _ _ _ Hnone); [|done].
    simpl. fold r. by rewrite Hf. }
  unfold w1. rewrite (Hteam abbrev _ _ Hfirst). simpl.
  split; [done|]. split; [done|]. split; [by rewrite lookup_insert_eq|].
  intros d abbrev' Hd Hday.
  set (w2 := later d _).
  assert (MemoryCache.get (clock w2) (key_of (clock w2) Standings) (store w2)
          = (doc, store w2)) as Hget.
  { unfold w2. simpl. rewrite Hday. fold key.
    apply (get_live _ _ _ _ (lookup_set _ _ _ _ _)). simpl. lia. }
  assert (getStandings upstream w2 = (Ok doc, w2)) as Hsecond.
  { change (getStandings upstream w2) with (ask upstream Standings w2).
    rewrite ask_hit; rewrite Hget; [|done]. by destruct w2. }
  by rewrite (Hteam abbrev' _ _ Hsecond).
Qed.

Lemma same_key_same_url now now' q q' :
  key_of now q = key_of now' q' → url_of now q = url_of now' q'.
Proof.
  destruct q, q'; unfold key_of, url_of;
    generalize (isoDate now), (isoDate now'); intros d1 d2; simpl;
    intros H; try discriminate H; injection H as H;
    match type of H with "" +:+ ?a = "" +:+ ?b => change (a = b) in H end;
    by subst.
Qed.

Lemma from_upstream_ask q w :
  from_upstream upstream w → from_upstream upstream (ask upstream q w).2.
Proof.
  intros Hw.
  assert (∀ k e,
            cache (MemoryCache.get (clock w) (key_of (clock w) q) (store w)).2 !! k
            = Some e → cache (store w) !! k = Some e) as Hsub.
  { intros k e He.
    destruct (get_lookup (clock w) (key_of (clock w) q) k (store w))
      as [H|[_ H]]; congruence. }
  destruct (truthy (MemoryCache.get (clock w) (key_of (clock w) q) (store w)).1)
    eqn:Hhit.
  - rewrite (ask_hit upstream q w Hhit). intros k e He. simpl in *.
    by apply Hw, Hsub.
  - pose proof (ask_miss upstream q w Hhit) as Hask. simpl in Hask. rewrite Hask.
    assert (∀ k e,
              cache (MemoryCache.get (clock w) (key_of (clock w) q) (store w)).2 !! k
              = Some e →
              ∃ i now q0, k = key_of now q0
                ∧ (requests w ++ [url_of (clock w) q]) !! i = Some (url_of now q0)
                ∧ fetched (upstream i (url_of now q0)) = Ok (data e)) as Hold.
    { intros k e He. destruct (Hw k e (Hsub k e He)) as (i & n & q0 & -> & Hi & Hf).
      exists i, n, q0. split; [done|]. split; [|done].
      by apply lookup_app_l_Some. }
    destruct (fetched _) as [v|e0] eqn:Hf; intros k e He; simpl in *.
    + destruct (decide (k = key_of (clock w) q)) as [->|Hne].
      * rewrite lookup_insert_eq in He. injection He as <-. simpl.
        exists (length (requests w)), (clock w), q. split; [done|].
        split; [|done]. by rewrite lookup_app_r, Nat.sub_diag.
      * rewrite lookup_insert_ne in He by congruence. by apply Hold.
    + by apply Hold.
Qed.

Lemma from_upstream_run steps w :
  from_upstream upstream w → from_upstream upstream (run upstream steps w).
Proof.
  revert w. induction steps as [|[q|d] steps IH]; intros w Hw; simpl; [done| |].
  - by apply IH, from_upstream_ask.
  - apply IH. intros k e He. by apply Hw.
Qed.

(** X15. The service serves nothing but what the upstream sent: starting
    from an empty cache, after any sequence of calls and waits, a value
    returned by a call, fresh or from the cache, is the body of a
    successful upstream reply to a logged request for that call's URL. *)
Theorem served_values_come_from_upstream steps w q v :
  cache (store w) = ∅ →
  let w' := run upstream steps w in
  (ask upstream q w').1 = Ok v →
  ∃ i, requests (ask upstream q w').2 !! i = Some (url_of (clock w') q)
       ∧ fetched (upstream i (url_of (clock w') q)) = Ok v.
Proof.
  intros Hempty w' Hres.
  assert (from_upstream upstream w') as Hw'.
  { apply from_upstream_run. intros k e. by rewrite Hempty, lookup_empty. }
  destruct (truthy (MemoryCache.get (clock w') (key_of (clock w') q) (store w')).1)
    eqn:Hhit.
  - rewrite (ask_hit upstream q w' Hhit) in Hres |- *. simpl in *.
    injection Hres as <-.
    unfold MemoryCache.get in *.
    destruct (cache (store w') !! key_of (clock w') q) as [e|] eqn:He; [|done].
    destruct (Z.gtb (clock w') (expiresAt e)); [done|]. simpl in *.
    destruct (Hw' _ _ He) as (i & n & q0 & Hkey & Hi & Hf).
    rewrite <- (same_key_same_url _ _ _ _ Hkey) in Hi, Hf. by exists i.
  - pose proof (ask_miss upstream q w' Hhit) as Hask. simpl in Hask.
    rewrite Hask in Hres |- *.
    destruct (fetched _) as [v0|e0] eqn:Hf; simpl in *; [|done].
    injection Hres as ->. exists (length (requests w')).
    split; [|done]. by rewrite lookup_app_r, Nat.sub_diag.
Qed.

End ServiceExtras.

(** ** Properties of the Express routers *)

Section RouterExtras.

Variable upstream : nat → string → reply.
Variable engine_message : string.

Implicit Types (w : world) (v : value).

(** X16. GET /players/:playerId answers 400 exactly when the id is not a
    non-empty string of digits, and then touches neither the cache nor
    the upstream; the only request it ever sends is for
    /player/<id>/landing with an id made of digits. *)
Theorem players_only_digits_reach_upstream playerId w :
  let resp := (players_by_id upstream engine_message playerId w).1 in
  let w1 := (players_by_id upstream engine_message playerId w).2 in
  (statusCode resp = 400 ↔ numeric_id playerId = false) ∧
  (numeric_id playerId = false → w1 = w) ∧
  (requests w1 = requests w
   ∨ (numeric_id playerId = true
      ∧ requests w1
        = requests w ++ [NHL_API_BASE +:+ "/player/" +:+ playerId +:+ "/landing"])).
Proof.
  unfold players_by_id.
  destruct (numeric_id playerId) eqn:Hid; simpl.
  - pose proof (ask_requests upstream (Player playerId) w) as Hreq. simpl in Hreq.
    destruct (getPlayerStats upstream playerId w) as [[stats|e] w']; simpl in *;
      (split; [split; intros; discriminate|]); (split; [done|]);
      (destruct Hreq as [Hreq|Hreq]; [by left | by right]).
  - split; [done|]. split; [done | by left].
Qed.

(** X17. A player document is served from the cache for ten minutes:
    after a first GET /players/:playerId that fetched a truthy document,
    the same request made up to 600 000 ms after the write answers 200
    with the same document and sends nothing to the upstream. *)
Theorem players_cached_for_ten_minutes playerId w v :
  numeric_id playerId = true →
  cache (store w) !! ("player:" +:+ playerId) = None →
  fetched (upstream (length (requests w))
             (NHL_API_BASE +:+ "/player/" +:+ playerId +:+ "/landing")) = Ok v →
  truthy v = true →
  let w1 := (players_by_id upstream engine_message playerId w).2 in
  (players_by_id upstream engine_message playerId w).1 = respond 200 v ∧
  requests w1
  = requests w ++ [NHL_API_BASE +:+ "/player/" +:+ playerId +:+ "/landing"] ∧
  (∀ d, d ≤ 10 * 60 * 1000 →
     players_by_id upstream engine_message playerId (later d w1)
     = (respond 200 v, later d w1)).
Proof.
  intros Hid Hnone Hf Htruthy.
  change (NHL_API_BASE +:+ "/player/" +:+ playerId +:+ "/landing")
    with (url_of (clock w) (Player playerId)) in *.
  change ("player:" +:+ playerId) with (key_of (clock w) (Player playerId)) in Hnone.
  assert (truthy (MemoryCache.get (clock w) (key_of (clock w) (Player playerId))
                    (store w)).1 = false) as Hmiss
    by by rewrite (get_absent _ _ _ Hnone).
  pose proof (ask_miss upstream (Player playerId) w Hmiss) as Hask.
  cbv zeta in Hask. rewrite Hf, (get_absent _ _ _ Hnone) in Hask.
  unfold players_by_id. rewrite Hid.
  change (getPlayerStats upstream playerId) with (ask upstream (Player playerId)).
  cbn [negb]. rewrite Hask. cbn [fst snd].
  split; [done|]. split; [done|]. intros d Hd.
  set (w2 := later d _).
  assert (MemoryCache.get (clock w2) (key_of (clock w2) (Player playerId)) (store w2)
          = (v, store w2)) as Hget.
  { apply (get_live _ _ _ _ (lookup_set _ _ _ _ _)). simpl. lia. }
  assert (ask upstream (Player playerId) w2 = (Ok v, w2)) as Hsecond.
  { rewrite ask_hit; rewrite Hget; [|done]. by destruct w2. }
  by rewrite Hsecond.
Qed.

(** X18. The status of the upstream is not forwarded: when the upstream
    answers a player request with a response that is not ok, whatever its
    status (a 404 too), the route answers 500, with the status and the
    status text of the upstream in the message. *)
Theorem upstream_status_becomes_500 playerId w response :
  numeric_id playerId = true →
  truthy (MemoryCache.get (clock w) ("player:" +:+ playerId) (store w)).1 = false →
  answer (upstream (length (requests w))
            (NHL_API_BASE +:+ "/player/" +:+ playerId +:+ "/landing"))
  = Ok response →
  ok response = false →
  (players_by_id upstream engine_message playerId w).1
  = respond 500
      (VObj [("error", VStr "Internal server error");
             ("message", VStr ("NHL API error: " +:+ show (status response)
                                 +:+ " " +:+ statusText response))]).
Proof.
  intros Hid Hmiss Hanswer Hok.
  change (NHL_API_BASE +:+ "/player/" +:+ playerId +:+ "/landing")
    with (url_of (clock w) (Player playerId)) in Hanswer.
  pose proof (ask_miss upstream (Player playerId) w Hmiss) as Hask.
  cbv zeta in Hask. unfold fetched in Hask. rewrite Hanswer, Hok in Hask.
  unfold players_by_id. rewrite Hid.
  change (getPlayerStats upstream playerId) with (ask upstream (Player playerId)).
  cbn [negb]. by rewrite Hask.
Qed.

(** An id that GET /teams/:teamId accepts is made of 7-bit characters. *)
Lemma team_id_format_seven_bit s :
  team_id_format s = true → seven_bit s = true.
Proof.
  unfold team_id_format. intros [_ Hall]%andb_prop. clear -Hall.
  induction s as [|a s IH]; [done|]. simpl in *.
  apply andb_prop in Hall as [Ha Hs]. rewrite (IH Hs), andb_true_r.
  unfold is_letter in Ha. apply Nat.ltb_lt.
  apply orb_prop in Ha as [[_ H]%andb_prop|[_ H]%andb_prop];
    apply Nat.leb_le in H; lia.
Qed.

(** X19. GET /teams/:teamId over standings whose entries all carry an
    abbreviation of 7-bit characters: an id that is not two to four
    letters is answered 400 without any lookup; an id of that form (which
    is then 7-bit too) is answered 200 with an entry that has this
    abbreviation up to letter case when there is one, and 404 when there
    is none. *)
Theorem teams_by_id_outcomes teamId w doc items :
  (getStandings upstream w).1 = Ok doc →
  get_prop doc "standings" = Ok (VArr items) →
  Forall ascii_team items →
  (team_id_format teamId = false →
   statusCode (teams_by_id upstream engine_message teamId w).1 = 400 ∧
   (teams_by_id upstream engine_message teamId w).2 = w) ∧
  (team_id_format teamId = true →
   seven_bit teamId = true ∧
   ((∃ t, t ∈ items ∧ team_matches teamId t) →
    ∃ t, t ∈ items ∧ team_matches teamId t ∧
         (teams_by_id upstream engine_message teamId w).1 = respond 200 t) ∧
   ((∀ t, t ∈ items → ¬ team_matches teamId t) →
    (teams_by_id upstream engine_message teamId w).1 = respond 404 not_found_body)).
Proof.
  intros Hs Hl Hascii.
  assert (Forall (λ t, is_Some (abbrev_of t)) items) as Hwf.
  { eapply Forall_impl; [exact Hascii|]. intros t (a & Ha & _). by exists a. }
  unfold teams_by_id. split.
  - intros ->. done.
  - intros Hformat. split; [by apply team_id_format_seven_bit|].
    rewrite Hformat. simpl.
    pose proof (getTeamStats_standings upstream teamId w doc items Hs Hl) as Hteam.
    destruct (getTeamStats upstream teamId w) as [res w'] eqn:E. simpl in Hteam.
    split.
    + intros Hsome.
      destruct (find_some_match teamId items Hwf Hsome) as (t & Hin & Hm & Hfind).
      exists t. split; [done|]. split; [done|].
      rewrite Hfind in Hteam. destruct Hm as (a & Ha & Heq).
      destruct (abbrev_matches_team teamId t a Ha) as [_ Ht].
      rewrite Ht in Hteam. subst res. by rewrite Ht.
    + intros Hnone. rewrite (find_no_match teamId items Hwf Hnone) in Hteam.
      by subst res.
Qed.

Lemma abbrev_of_read t a :
  abbrev_of t = Some a →
  get_prop2 t "teamAbbrev" "default" = Ok (VStr a)
  ∧ ∀ name, ∃ x, get_prop t name = Ok x.
Proof.
  unfold abbrev_of, get_prop2.
  destruct t as [| | | | | |fields]; simpl; try done.
  destruct (assoc "teamAbbrev" fields) as [ta|]; simpl; [|done].
  destruct ta as [| | | | | |g]; simpl; try done.
  destruct (assoc "default" g) as [d|]; simpl; [|done].
  destruct d; try done. intros [= ->]. split; [done|]. intros name. by eexists.
Qed.

Lemma team_summary_listable t :
  listable t →
  ∃ a place name s,
    abbrev_of t = Some a ∧ seven_bit a = true
    ∧ get_prop2 t "placeName" "default" = Ok (VStr place)
    ∧ get_prop2 t "teamName" "default" = Ok (VStr name)
    ∧ team_summary t = Ok s
    ∧ get_prop s "id" = Ok (VStr a)
    ∧ get_prop s "abbreviation" = Ok (VStr a)
    ∧ get_prop s "name" = Ok (VStr (place +:+ " " +:+ name)).
Proof.
  intros ((a & Ha & Hbits) & [place Hplace] & [name Hname]).
  exists a, place, name.
  destruct (abbrev_of_read t a Ha) as [Hid Hread].
  destruct (Hread "conferenceName") as [conference Hc].
  destruct (Hread "divisionName") as [division Hd].
  destruct (Hread "teamLogo") as [logo Hlogo].
  unfold team_summary. rewrite Hid, Hplace, Hname, Hc, Hd, Hlogo.
  eexists. do 4 (split; [done|]). split; [done|]. split; [done|]. split; done.
Qed.

Lemma map_result_listable items :
  Forall listable items →
  ∃ summaries, map_result team_summary items = Ok summaries ∧
    length summaries = length items ∧
    ∀ i t, items !! i = Some t →
      ∃ a place name s,
        abbrev_of t = Some a ∧ seven_bit a = true
        ∧ get_prop2 t "placeName" "default" = Ok (VStr place)
        ∧ get_prop2 t "teamName" "default" = Ok (VStr name)
        ∧ summaries !! i = Some s
        ∧ get_prop s "id" = Ok (VStr a)
        ∧ get_prop s "abbreviation" = Ok (VStr a)
        ∧ get_prop s "name" = Ok (VStr (place +:+ " " +:+ name)).
Proof.
  induction 1 as [|t items Ht Hall (summaries & Hmap & Hlen & Hat)].
  - exists []. split; [done|]. split; [done|]. intros i t. by rewrite lookup_nil.
  - destruct (team_summary_listable t Ht)
      as (a & place & name & s & Ha & Hbits & Hp & Hn & Hs & Hid & Hab & Hname).
    exists (s :: summaries). simpl. rewrite Hs, Hmap.
    split; [done|]. split; [by rewrite Hlen|].
    intros [|i] t' Hi; simpl in *.
    + injection Hi as <-. by exists a, place, name, s.
    + by apply Hat.
Qed.

(** X20. Over standings whose entries all carry an abbreviation of 7-bit
    characters and a place name and a team name that are strings: GET
    /teams lists one summary per entry, in order; the [id] and the
    [abbreviation] of each summary are the entry's abbreviation, its
    [name] is the place name, a space and the team name; when the id has
    the form GET /teams/:teamId accepts and no earlier entry has the same
    abbreviation up to letter case, GET /teams/<id> gives back the entry
    itself. Empty standings are listed as the empty array. *)
Theorem teams_index_ids_look_up w doc items :
  (getStandings upstream w).1 = Ok doc →
  get_prop doc "standings" = Ok (VArr items) →
  Forall listable items →
  ∃ summaries,
    (teams_index upstream engine_message w).1 = respond 200 (VArr summaries) ∧
    (teams_index upstream engine_message w).2 = (getStandings upstream w).2 ∧
    length summaries = length items ∧
    ∀ i t, items !! i = Some t →
      ∃ a place name s,
        abbrev_of t = Some a ∧ seven_bit a = true
        ∧ get_prop2 t "placeName" "default" = Ok (VStr place)
        ∧ get_prop2 t "teamName" "default" = Ok (VStr name)
        ∧ summaries !! i = Some s
        ∧ get_prop s "id" = Ok (VStr a)
        ∧ get_prop s "abbreviation" = Ok (VStr a)
        ∧ get_prop s "name" = Ok (VStr (place +:+ " " +:+ name))
        ∧ (team_id_format a = true →
           (∀ j t', (j < i)%nat → items !! j = Some t' → ¬ team_matches a t') →
           (teams_by_id upstream engine_message a w).1 = respond 200 t).
Proof.
  intros Hs Hl Hall.
  destruct (map_result_listable items Hall) as (summaries & Hmap & Hlen & Hat).
  exists summaries. unfold teams_index.
  destruct (getStandings upstream w) as [res w'] eqn:E. simpl in Hs. subst res.
  rewrite Hl, Hmap. simpl. split; [done|]. split; [done|]. split; [done|].
  intros i t Hi.
  destruct (Hat i t Hi)
    as (a & place & name & s & Ha & Hbits & Hp & Hn & Hsi & Hid & Hab & Hname).
  exists a, place, name, s. do 8 (split; [done|]).
  intros Hformat Hfirst. unfold teams_by_id. rewrite Hformat. simpl.
  assert (Forall (λ t, is_Some (abbrev_of t)) items) as Hwf.
  { eapply Forall_impl; [exact Hall|]. intros t' ((a' & Ha' & _) & _). by exists a'. }
  assert ((getStandings upstream w).1 = Ok doc) as Hs' by by rewrite E.
  pose proof (getTeamStats_standings upstream a w doc items Hs' Hl) as Hteam.
  rewrite (find_first_match a items i t Hwf Hi) in Hteam; [|by exists a|done].
  destruct (abbrev_matches_team a t a Ha) as [_ Ht]. rewrite Ht in Hteam.
  destruct (getTeamStats upstream a w) as [res w'']. simpl in Hteam. subst res.
  by rewrite Ht.
Qed.

End RouterExtras.

(** ** Properties of the uncached service and of the serverless handlers *)

Section ServerlessExtras.

Variable upstream : nat → string → reply.
Variable engine_message : string.

Implicit Types (q : query) (w : world) (v : value) (req : VercelRequest).

(** [fetchNHL] always sends its request, and returns what was fetched. *)
Lemma fetchNHL_fetched endpoint w :
  fetchNHL upstream endpoint w
  = (fetched (upstream (length (requests w)) (NHL_API_BASE +:+ endpoint)),
     {| store := store w;
        clock := clock w
                 + elapsed (upstream (length (requests w)) (NHL_API_BASE +:+ endpoint));
        requests := requests w ++ [NHL_API_BASE +:+ endpoint] |}).
Proof.
  unfold fetchNHL, fetch, fetched, throw, lift, mbind, M_bind. simpl.
  destruct (answer _) as [response|e]; [|done]. by destruct (ok response).
Qed.

Lemma lib_ask_run q m w :
  Lib.ask upstream q = Some m →
  m w = (fetched (upstream (length (requests w)) (url_of (clock w) q)),
         {| store := store w;
            clock := clock w
                     + elapsed (upstream (length (requests w)) (url_of (clock w) q));
            requests := requests w ++ [url_of (clock w) q] |}).
Proof.
  destruct q; simpl; intros [= <-];
    unfold Lib.getLiveScores, Lib.getSchedule, Lib.getGameById, Lib.getStandings,
      today, mbind, M_bind; simpl; apply fetchNHL_fetched.
Qed.

(** X21. The uncached service of api/_lib/nhl.ts sends one request on
    every call and never touches the cache; the cached service, whenever
    its lookup misses, sends the same request, takes the same time and
    returns the same result or the same failure. *)
Theorem cached_miss_is_uncached_call q m w :
  Lib.ask upstream q = Some m →
  store (m w).2 = store w ∧
  requests (m w).2 = requests w ++ [url_of (clock w) q] ∧
  (truthy (MemoryCache.get (clock w) (key_of (clock w) q) (store w)).1 = false →
   (ask upstream q w).1 = (m w).1 ∧
   requests (ask upstream q w).2 = requests (m w).2 ∧
   clock (ask upstream q w).2 = clock (m w).2).
Proof.
  intros Hm. rewrite (lib_ask_run q m w Hm). simpl.
  split; [done|]. split; [done|]. intros Hmiss.
  pose proof (ask_miss upstream q w Hmiss) as Hask. cbv zeta in Hask.
  rewrite Hask. by destruct (fetched _).
Qed.

(** X22. The games handler sets the CORS headers on every answer, never
    touches the cache, and answers a method other than GET (200 without
    body for OPTIONS, 405 otherwise) without sending anything; the only
    request it sends is, for a GET, the schedule of a date of the form
    dddd-dd-dd taken from the query, or the schedule of the current UTC
    date when the query has no date or an empty one. *)
Theorem games_handler_requests req w :
  let resp := (Vercel.games upstream engine_message req w).1 in
  let w1 := (Vercel.games upstream engine_message req w).2 in
  headers resp = cors ∧
  store w1 = store w ∧
  (req_method req ≠ "GET" →
   w1 = w ∧
   statusCode resp = if String.eqb (req_method req) "OPTIONS" then 200 else 405) ∧
  (requests w1 = requests w
   ∨ ∃ d, requests w1 = requests w ++ [NHL_API_BASE +:+ "/schedule/" +:+ d]
          ∧ req_method req = "GET"
          ∧ ((d = to_string (query_param req "date") ∧ date_format d = true)
             ∨ (truthy (query_param req "date") = false ∧ d = isoDate (clock w)))).
Proof.
  unfold Vercel.games, Vercel.guarded.
  destruct (String.eqb_spec (req_method req) "OPTIONS") as [Hopt|Hopt].
  { simpl. split; [done|]. split; [done|]. split; [done | by left]. }
  destruct (String.eqb_spec (req_method req) "GET") as [Hget|Hget]; simpl.
  2:{ split; [done|]. split; [done|]. split; [done | by left]. }
  destruct (truthy (query_param req "date")) eqn:Hdate.
  - destruct (date_format (to_string (query_param req "date"))) eqn:Hformat; simpl.
    + unfold Lib.getSchedule. rewrite fetchNHL_fetched.
      destruct (fetched _); simpl;
        (split; [done|]); (split; [done|]); (split; [done|]);
        right; eexists; (split; [done|]); (split; [done|]); by left.
    + split; [done|]. split; [done|]. split; [done | by left].
  - unfold Lib.getLiveScores, Lib.getSchedule, today, mbind, M_bind. simpl.
    rewrite fetchNHL_fetched.
    destruct (fetched _); simpl;
      (split; [done|]); (split; [done|]); (split; [done|]);
      right; eexists; (split; [done|]); (split; [done|]); by right.
Qed.

(** X23. The game handler asks the upstream only for a GET whose gameId
    is a single string, and then for /gamecenter/<gameId>/landing with
    that string as it is; a gameId that is absent or given more than once
    is answered 400, and nothing is sent. It never touches the cache. *)
Theorem game_handler_requests req w :
  let resp := (Vercel.game upstream engine_message req w).1 in
  let w1 := (Vercel.game upstream engine_message req w).2 in
  headers resp = cors ∧
  store w1 = store w ∧
  (req_method req = "GET" → (∀ id, query_param req "gameId" ≠ VStr id) →
   statusCode resp = 400 ∧ w1 = w) ∧
  (requests w1 = requests w
   ∨ ∃ id, query_param req "gameId" = VStr id ∧ req_method req = "GET"
           ∧ requests w1
             = requests w ++ [NHL_API_BASE +:+ "/gamecenter/" +:+ id +:+ "/landing"]).
Proof.
  unfold Vercel.game, Vercel.guarded.
  destruct (String.eqb_spec (req_method req) "OPTIONS") as [Hopt|Hopt].
  { simpl. split; [done|]. split; [done|]. split; [|by left].
    intros Hget. rewrite Hget in Hopt. discriminate Hopt. }
  destruct (String.eqb_spec (req_method req) "GET") as [Hget|Hget]; simpl.
  2:{ split; [done|]. split; [done|]. split; [done | by left]. }
  destruct (query_param req "gameId") as [| | | |id| |] eqn:Hid; simpl;
    try (split; [done|]; split; [done|]; split; [done | by left]).
  unfold Lib.getGameById. rewrite fetchNHL_fetched.
  destruct (fetched _); simpl;
    (split; [done|]); (split; [done|]);
    (split; [intros _ Hno; by destruct (Hno id)|]);
    right; by exists id.
Qed.

(** On a miss the cached and the uncached [getStandings] return the same
    thing. *)
Lemma getStandings_miss w :
  truthy (MemoryCache.get (clock w) (key_of (clock w) Standings) (store w)).1 = false →
  (getStandings upstream w).1 = (Lib.getStandings upstream w).1.
Proof.
  intros Hmiss.
  pose proof (ask_miss upstream Standings w Hmiss) as Hask. cbv zeta in Hask.
  change (getStandings upstream w) with (ask upstream Standings w).
  rewrite Hask, (lib_ask_run Standings (Lib.getStandings upstream) w eq_refl).
  by destruct (fetched _).
Qed.

(** X24. The two deployments answer alike: for a GET, whenever the
    Express side misses its cache, the serverless teams list sends the
    status and the body of the Express GET /teams, and the serverless team
    handler those of the Express GET /teams/:teamId for every id of two to
    four letters, with the CORS headers added. *)
Theorem serverless_teams_agree_with_express req w :
  req_method req = "GET" →
  truthy (MemoryCache.get (clock w) (key_of (clock w) Standings) (store w)).1 = false →
  (Vercel.teams upstream engine_message req w).1
  = with_cors (teams_index upstream engine_message w).1 ∧
  (∀ teamId, query_param req "teamId" = VStr teamId →
     team_id_format teamId = true →
     (Vercel.team upstream engine_message req w).1
     = with_cors (teams_by_id upstream engine_message teamId w).1).
Proof.
  intros Hget Hmiss. pose proof (getStandings_miss w Hmiss) as Hsame.
  unfold Vercel.teams, Vercel.team, Vercel.guarded. rewrite Hget. simpl. split.
  - unfold teams_index.
    destruct (getStandings upstream w) as [res w1].
    destruct (Lib.getStandings upstream w) as [res' w2]. simpl in Hsame. subst res'.
    destruct res as [standings|e]; [|done].
    destruct (get_prop standings "standings") as [l|e]; [|done].
    destruct l as [| | | | |items|]; try done.
    by destruct (map_result team_summary items).
  - intros teamId -> Hformat. unfold teams_by_id. rewrite Hformat. simpl.
    unfold getTeamStats, Lib.getTeamStats, lift, mbind, M_bind, mret, M_ret.
    destruct (getStandings upstream w) as [res w1].
    destruct (Lib.getStandings upstream w) as [res' w2]. simpl in Hsame. subst res'.
    destruct res as [standings|e]; [|done].
    destruct (get_prop standings "standings") as [l|e]; [|done].
    destruct l as [| | | | |items|]; try done.
    destruct (find (abbrev_matches teamId) items) as [t|e]; [|done].
    destruct (truthy t) eqn:Ht; simpl; rewrite ?Ht; done.
Qed.

End ServerlessExtras.

(** ** Calls that overlap, and the sweep between calls *)

Section OverlapExtras.

Variable upstream : nat → string → reply.

Implicit Types (q : query) (w : world) (v : value).

(** Run one after the other, the two parts of a call are the call. *)
Lemma start_resume_is_ask q w :
  match start upstream q w with
  | (inl cached, w') => ask upstream q w = (Ok cached, w')
  | (inr p, w') =>
      0 ≤ elapsed (upstream (length (requests w)) (url_of (clock w) q)) →
      resume p w' = ask upstream q w
  end.
Proof.
  rewrite ask_read_through. unfold start, read_through, resume.
  destruct (MemoryCache.get _ _ (store w)) as [cached c].
  destruct (truthy cached); [done|]. simpl. intros Hpos.
  rewrite Z.max_r by lia. by destruct (fetched _).
Qed.

(** X25. Misses that overlap are not merged: when two calls for the same
    query start on a cache without entry for its key before either reply
    is there, both send the request; each returns the body of its own
    reply, and the entry left is the one of the call that resumed last.
    Run without overlap, [start] and [resume] are the call itself. *)
Theorem overlapping_misses_both_fetch q w v1 v2 :
  cache (store w) !! key_of (clock w) q = None →
  fetched (upstream (length (requests w)) (url_of (clock w) q)) = Ok v1 →
  fetched (upstream (S (length (requests w))) (url_of (clock w) q)) = Ok v2 →
  (0 ≤ elapsed (upstream (length (requests w)) (url_of (clock w) q)) →
   ∃ p, start upstream q w = (inr p, (start upstream q w).2)
        ∧ resume p (start upstream q w).2 = ask upstream q w) ∧
  ∃ p1 p2 wa wb,
    start upstream q w = (inr p1, wa) ∧ start upstream q wa = (inr p2, wb) ∧
    requests wb = requests w ++ [url_of (clock w) q; url_of (clock w) q] ∧
    (resume p1 wb).1 = Ok v1 ∧
    (resume p2 (resume p1 wb).2).1 = Ok v2 ∧
    data <$> cache (store (resume p2 (resume p1 wb).2).2) !! key_of (clock w) q
    = Some v2 ∧
    data <$> cache (store (resume p1 (resume p2 wb).2).2) !! key_of (clock w) q
    = Some v1.
Proof.
  intros Hnone Hf1 Hf2.
  pose proof (get_absent (clock w) _ _ Hnone) as Hget.
  assert (truthy (MemoryCache.get (clock w) (key_of (clock w) q) (store w)).1
          = false) as Hmiss by by rewrite Hget.
  split.
  - intros Hpos. unfold start. rewrite Hget. simpl. eexists. split; [done|].
    pose proof (ask_miss upstream q w Hmiss) as Hask. cbv zeta in Hask.
    rewrite Hask, Hget. unfold resume. simpl. rewrite Hf1.
    by rewrite Z.max_r by lia.
  - set (key := key_of (clock w) q) in *. set (url := url_of (clock w) q) in *.
    set (r1 := upstream (length (requests w)) url) in *.
    set (r2 := upstream (S (length (requests w))) url) in *.
    set (wa := {| store := store w; clock := clock w;
                  requests := requests w ++ [url] |}).
    set (wb := {| store := store w; clock := clock w;
                  requests := (requests w ++ [url]) ++ [url] |}).
    exists {| p_key := key; p_ttl := ttl_of q;
              p_due := clock w + elapsed r1; p_fetched := fetched r1 |},
           {| p_key := key; p_ttl := ttl_of q;
              p_due := clock w + elapsed r2; p_fetched := fetched r2 |}, wa, wb.
    split; [|split; [|split]].
    + unfold start. fold key url. by rewrite Hget.
    + unfold start. simpl. fold key url. rewrite Hget. simpl.
      by rewrite length_app, Nat.add_1_r.
    + simpl. by rewrite <- app_assoc.
    + unfold resume.
      cbn [p_fetched p_key p_ttl p_due fst snd store clock requests].
      rewrite Hf1, Hf2.
      cbn [p_fetched p_key p_ttl p_due fst snd store clock requests].
      rewrite ?Hf1, ?Hf2.
      cbn [p_fetched p_key p_ttl p_due fst snd store clock requests
             MemoryCache.set cache].
      split; [done|]. split; [done|]. by rewrite !lookup_insert_eq.
Qed.

(** X26. The sweep is invisible to the callers of the service: a call
    made after a sweep returns what it would have returned without the
    sweep, and sends the same requests. *)
Theorem sweep_invisible_to_service q w swept :
  swept ≤ clock w →
  let ws := {| store := MemoryCache.cleanup swept (store w);
               clock := clock w; requests := requests w |} in
  (ask upstream q ws).1 = (ask upstream q w).1 ∧
  requests (ask upstream q ws).2 = requests (ask upstream q w).2 ∧
  clock (ask upstream q ws).2 = clock (ask upstream q w).2.
Proof.
  intros Hle ws.
  pose proof (get_after_cleanup (clock w) swept (key_of (clock w) q) (store w) Hle)
    as Hsame.
  destruct (truthy (MemoryCache.get (clock w) (key_of (clock w) q) (store w)).1)
    eqn:Hhit.
  - assert (truthy (MemoryCache.get (clock ws) (key_of (clock ws) q) (store ws)).1
            = true) as Hhit' by (simpl; by rewrite Hsame).
    rewrite (ask_hit upstream q ws Hhit'), (ask_hit upstream q w Hhit). simpl.
    by rewrite Hsame.
  - assert (truthy (MemoryCache.get (clock ws) (key_of (clock ws) q) (store ws)).1
            = false) as Hmiss' by (simpl; by rewrite Hsame).
    pose proof (ask_miss upstream q ws Hmiss') as Hs. cbv zeta in Hs.
    pose proof (ask_miss upstream q w Hhit) as Hw. cbv zeta in Hw.
    rewrite Hs, Hw. simpl. by destruct (fetched _).
Qed.

End OverlapExtras.

(** ** The further properties at the fixtures *)

Section ExtraInstances.

Import Sample.

Lemma sweep_invisible_to_reads_witness :
  let c1 := MemoryCache.set 1000 "k" (VNum 1) 500 cache0 in
  MemoryCache.get 2000 "k" (MemoryCache.cleanup 1600 c1)
  = ((MemoryCache.get 2000 "k" c1).1,
     MemoryCache.cleanup 1600 (MemoryCache.get 2000 "k" c1).2).
Proof. intros c1. apply sweep_invisible_to_reads. lia. Defined.

Lemma keys_independent_witness :
  let c1 := MemoryCache.set 1000 "b" (VNum 2) 500 cache0 in
  (MemoryCache.get 1200 "b" (MemoryCache.set 1100 "a" (VNum 1) 50 c1)).1 = VNum 2 ∧
  (MemoryCache.get 1200 "b" (MemoryCache.delete "a" c1)).1 = VNum 2.
Proof.
  intros c1.
  destruct (keys_independent "a" "b" 1200 c1) as (Hset & Hdel & _); [done|].
  split; [by rewrite Hset | by rewrite Hdel].
Defined.

Lemma delete_undoes_set_witness :
  MemoryCache.delete "k" (MemoryCache.set 1000 "k" (VNum 1) 500 cache0) = cache0.
Proof. apply (delete_undoes_set 1000 "k" (VNum 1) 500 cache0). reflexivity. Defined.

Lemma destroy_clears_only_own_timer_witness :
  let h := {| running := {[ 1%nat; 5%nat ]}; next_handle := 6%nat |} in
  5%nat ∈ running (MemoryCache.destroy cache0 h).2 ↔ 5%nat ∈ running h.
Proof. intros h. apply destroy_clears_only_own_timer. simpl. discriminate. Defined.

Lemma negative_ttl_never_read_witness :
  (MemoryCache.get 1000 "k" (MemoryCache.set 1000 "k" (VNum 1) (-1) cache0)).1
  = VNull.
Proof. apply negative_ttl_never_read; lia. Defined.

Lemma refetch_after_ttl_witness :
  let q := Schedule "2024-01-15" in
  let w := later 400000 (ask (responds mockSchedule) q world0).2 in
  (ask (responds (VNum 7)) q w).1 = Ok (VNum 7) ∧
  requests (ask (responds (VNum 7)) q w).2
  = ["https://api-web.nhle.com/v1/schedule/2024-01-15";
     "https://api-web.nhle.com/v1/schedule/2024-01-15"].
Proof.
  intros q w.
  destruct (refetch_after_ttl (responds (VNum 7)) q w
              {| data := mockSchedule; expiresAt := 1705276800000 + 120 + 300000 |}
              (VNum 7))
    as (Hres & Hreq & _); [reflexivity | by vm_compute | reflexivity |].
  split; [exact Hres | exact Hreq].
Defined.

Lemma call_touches_only_its_key_witness :
  let w := (ask (responds mockSchedule) LiveScores world0).2 in
  cache (store (ask (responds mockSchedule) (Schedule "2024-01-15") w).2)
    !! "live-scores:2024-01-15"
  = cache (store w) !! "live-scores:2024-01-15".
Proof.
  intros w.
  destruct (call_touches_only_its_key (responds mockSchedule)
              (Schedule "2024-01-15") w) as (Hframe & _).
  apply Hframe. discriminate.
Defined.

Lemma keys_separate_queries_witness :
  url_of 1705276800000 Standings = url_of 1705280400000 Standings ∧
  ttl_of Standings = ttl_of Standings ∧
  isoDate 1705276800000 = isoDate 1705280400000.
Proof.
  apply (keys_separate_queries 1705276800000 1705280400000 Standings Standings).
  reflexivity.
Defined.

(** The test of [getTeamStats] for a failing standings fetch. *)
Lemma getTeamStats_follows_getStandings_witness :
  (getTeamStats not_found "bos" world0).1
  = Throw (Error "NHL API error: 404 Not Found").
Proof.
  apply (getTeamStats_follows_getStandings not_found "bos" world0). reflexivity.
Defined.

Lemma malformed_standings_are_cached_witness :
  let up := responds (VObj [("message", VStr "maintenance")]) in
  let w1 := (getTeamStats up "bos" world0).2 in
  (getTeamStats up "bos" world0).1 = Throw TypeError ∧
  (getTeamStats up "tor" (later 1000 w1)).1 = Throw TypeError ∧
  requests (getTeamStats up "tor" (later 1000 w1)).2
  = ["https://api-web.nhle.com/v1/standings/2024-01-15"].
Proof.
  intros up w1.
  destruct (malformed_standings_are_cached up "bos" world0
              (VObj [("message", VStr "maintenance")]))
    as (Hres & Hreq & _ & Hagain);
    [reflexivity | reflexivity | reflexivity | discriminate |].
  destruct (Hagain 1000 "tor") as [Hres' Hreq']; [simpl; lia | reflexivity |].
  split; [exact Hres|]. split; [exact Hres'|].
  etrans; [exact Hreq' | exact Hreq].
Defined.

Lemma served_values_come_from_upstream_witness :
  let up := responds mockSchedule in
  let w' := run up [Call (Schedule "2024-01-15"); Wait 1000; Call LiveScores] world0 in
  ∃ i, requests (ask up (Schedule "2024-01-15") w').2 !! i
       = Some "https://api-web.nhle.com/v1/schedule/2024-01-15"
       ∧ fetched (up i "https://api-web.nhle.com/v1/schedule/2024-01-15")
         = Ok mockSchedule.
Proof.
  intros up w'.
  apply (served_values_come_from_upstream up
           [Call (Schedule "2024-01-15"); Wait 1000; Call LiveScores] world0
           (Schedule "2024-01-15") mockSchedule); reflexivity.
Defined.

(** The tests of the players route for invalid ids. *)
Lemma players_only_digits_reach_upstream_witness :
  players_by_id (responds mockSchedule) "" "abc123" world0
  = (respond 400 (VObj [("error", VStr "Invalid player ID");
                        ("message", VStr "Player ID must be numeric")]), world0)
  ∧ (players_by_id (responds mockSchedule) "" "invalid-id" world0).2 = world0.
Proof.
  split.
  - reflexivity.
  - apply (players_only_digits_reach_upstream (responds mockSchedule) ""
             "invalid-id" world0). reflexivity.
Defined.

Lemma players_cached_for_ten_minutes_witness :
  let up := responds mockSchedule in
  let w1 := (players_by_id up "" "8478402" world0).2 in
  (players_by_id up "" "8478402" world0).1 = respond 200 mockSchedule ∧
  players_by_id up "" "8478402" (later 600000 w1)
  = (respond 200 mockSchedule, later 600000 w1).
Proof.
  intros up w1.
  destruct (players_cached_for_ten_minutes up "" "8478402" world0 mockSchedule)
    as (Hres & _ & Hagain); [reflexivity | reflexivity | reflexivity | reflexivity |].
  split; [exact Hres|]. apply Hagain. lia.
Defined.

(** The test of the players route for a player that does not exist. *)
Lemma upstream_status_becomes_500_witness :
  (players_by_id not_found "" "9999999" world0).1
  = respond 500 (VObj [("error", VStr "Internal server error");
                       ("message", VStr "NHL API error: 404 Not Found")]).
Proof.
  apply (upstream_status_becomes_500 not_found "" "9999999" world0
           {| ok := false; status := 404; statusText := "Not Found";
              json := Throw (Rejected "Unexpected end of JSON input") |});
    reflexivity.
Defined.

(** The tests of GET /teams/:teamId. *)
Lemma teams_by_id_outcomes_witness :
  let up := responds mockStandings in
  (teams_by_id up "" "xyz" world0).1 = respond 404 not_found_body ∧
  statusCode (teams_by_id up "" "toolong" world0).1 = 400 ∧
  ∃ t, t ∈ [bruins; leafs] ∧ (teams_by_id up "" "tor" world0).1 = respond 200 t.
Proof.
  intros up.
  assert (Forall ascii_team [bruins; leafs]) as Hwf
    by (repeat constructor; eexists; (split; reflexivity)).
  destruct (teams_by_id_outcomes up "" "xyz" world0 mockStandings [bruins; leafs])
    as [_ Hxyz]; [reflexivity | reflexivity | exact Hwf |].
  destruct (teams_by_id_outcomes up "" "toolong" world0 mockStandings [bruins; leafs])
    as [Hlong _]; [reflexivity | reflexivity | exact Hwf |].
  destruct (teams_by_id_outcomes up "" "tor" world0 mockStandings [bruins; leafs])
    as [_ Htor]; [reflexivity | reflexivity | exact Hwf |].
  split; [|split].
  - apply Hxyz; [reflexivity|]. intros t Hin (a & Ha & Heq).
    apply elem_of_cons in Hin as [->|Hin];
      [|apply elem_of_cons in Hin as [->|Hin]; [|by apply elem_of_nil in Hin]];
      injection Ha as <-; discriminate Heq.
  - apply Hlong. reflexivity.
  - destruct (proj1 (proj2 (Htor eq_refl))) as (t & Hin & _ & Hres).
    + exists leafs. split; [right; left|]. exists "TOR". split; reflexivity.
    + by exists t.
Defined.

(** The first test of GET /teams, and the way back through
    GET /teams/:teamId. *)
Lemma teams_index_ids_look_up_witness :
  let up := responds mockStandings in
  ∃ summaries,
    (teams_index up "" world0).1 = respond 200 (VArr summaries) ∧
    length summaries = 2%nat ∧
    ∃ s, summaries !! 1%nat = Some s ∧ get_prop s "id" = Ok (VStr "TOR") ∧
         get_prop s "name" = Ok (VStr "Toronto Maple Leafs") ∧
         (teams_by_id up "" "TOR" world0).1 = respond 200 leafs.
Proof.
  intros up.
  destruct (teams_index_ids_look_up up "" world0 mockStandings [bruins; leafs])
    as (summaries & Hres & _ & Hlen & Hat).
  - reflexivity.
  - reflexivity.
  - repeat constructor; eexists; try (split; reflexivity); reflexivity.
  - exists summaries. split; [exact Hres|]. split; [exact Hlen|].
    destruct (Hat 1%nat leafs eq_refl)
      as (a & place & name & s & Ha & _ & Hp & Hn & Hs & Hid & _ & Hname & Hback).
    injection Ha as <-. injection Hp as <-. injection Hn as <-.
    exists s. split; [exact Hs|]. split; [exact Hid|]. split; [exact Hname|].
    apply Hback; [reflexivity|].
    intros [|j] t' Hj Ht' (a' & Ha' & Heq); [|lia].
    injection Ht' as <-. injection Ha' as <-. discriminate Heq.
Defined.

Lemma cached_miss_is_uncached_call_witness :
  let up := responds mockSchedule in
  let q := Schedule "2024-01-15" in
  (ask up q world0).1 = (Lib.getSchedule up "2024-01-15" world0).1 ∧
  requests (Lib.getSchedule up "2024-01-15" world0).2
  = ["https://api-web.nhle.com/v1/schedule/2024-01-15"].
Proof.
  intros up q.
  destruct (cached_miss_is_uncached_call up q (Lib.getSchedule up "2024-01-15") world0)
    as (_ & Hreq & Hsame); [reflexivity|].
  split; [apply Hsame; reflexivity | exact Hreq].
Defined.

Lemma games_handler_requests_witness :
  let up := responds mockSchedule in
  let post := {| req_method := "POST"; req_query := [("date", VStr "2024-01-15")] |} in
  (Vercel.games up "" post world0).2 = world0 ∧
  statusCode (Vercel.games up "" post world0).1 = 405.
Proof.
  intros up post.
  destruct (games_handler_requests up "" post world0) as (_ & _ & Hgate & _).
  apply Hgate. discriminate.
Defined.

Lemma game_handler_requests_witness :
  let up := responds mockSchedule in
  let req := {| req_method := "GET";
                req_query := [("gameId", VArr [VStr "2023020789"; VStr "1"])] |} in
  statusCode (Vercel.game up "" req world0).1 = 400 ∧
  (Vercel.game up "" req world0).2 = world0.
Proof.
  intros up req.
  destruct (game_handler_requests up "" req world0) as (_ & _ & Hbad & _).
  apply Hbad; [reflexivity | discriminate].
Defined.

Lemma serverless_teams_agree_with_express_witness :
  let up := responds mockStandings in
  let req := {| req_method := "GET"; req_query := [("teamId", VStr "bos")] |} in
  (Vercel.teams up "" req world0).1 = with_cors (teams_index up "" world0).1 ∧
  (Vercel.team up "" req world0).1 = with_cors (teams_by_id up "" "bos" world0).1.
Proof.
  intros up req.
  destruct (serverless_teams_agree_with_express up "" req world0)
    as [Hlist Hone]; [reflexivity | reflexivity |].
  split; [exact Hlist | apply Hone; reflexivity].
Defined.

(** Scenario C of the specification: two calls of [getStandings] that
    overlap on a cold cache; the upstream sends 7 to the first request and
    8 to the second. *)
Lemma overlapping_misses_both_fetch_witness :
  let up : nat → string → reply := λ n _,
    {| elapsed := 120;
       answer := Ok {| ok := true; status := 200; statusText := "OK";
                       json := Ok (VNum (7 + Z.of_nat n)) |} |} in
  ∃ p1 p2 wa wb,
    start up Standings world0 = (inr p1, wa) ∧
    start up Standings wa = (inr p2, wb) ∧
    requests wb = ["https://api-web.nhle.com/v1/standings/2024-01-15";
                   "https://api-web.nhle.com/v1/standings/2024-01-15"] ∧
    (resume p1 wb).1 = Ok (VNum 7) ∧
    (resume p2 (resume p1 wb).2).1 = Ok (VNum 8) ∧
    data <$> cache (store (resume p2 (resume p1 wb).2).2) !! "standings:2024-01-15"
    = Some (VNum 8).
Proof.
  intros up.
  destruct (overlapping_misses_both_fetch up Standings world0 (VNum 7) (VNum 8))
    as (_ & p1 & p2 & wa & wb & Ha & Hb & Hreq & H1 & H2 & Hlast & _);
    [reflexivity | reflexivity | reflexivity |].
  exists p1, p2, wa, wb.
  split; [exact Ha|]. split; [exact Hb|]. split; [exact Hreq|].
  split; [exact H1|]. split; [exact H2 | exact Hlast].
Defined.

Lemma sweep_invisible_to_service_witness :
  let up := responds mockSchedule in
  let q := Schedule "2024-01-15" in
  let w := later 1000 (ask up q world0).2 in
  let ws := {| store := MemoryCache.cleanup (clock w) (store w);
               clock := clock w; requests := requests w |} in
  (ask up q ws).1 = (ask up q w).1 ∧
  requests (ask up q ws).2 = requests (ask up q w).2.
Proof.
  intros up q w ws.
  destruct (sweep_invisible_to_service up q w (clock w)) as (Hres & Hreq & _);
    [lia|].
  split; [exact Hres | exact Hreq].
Defined.

End ExtraInstances.
